(** * TaxPilot: conversation flow manager and routing engine

    A shallow embedding of the flow manager (services/flowManager.ts), of
    the roster helpers it relies on (database/index.js,
    services/taxproLoader.ts) and of the routing engine, followed by the
    properties of these functions. The embedding also covers the roster
    and reminder stores of the database, the CSV parsing of the roster
    loader and the flow part of two tool handlers of the server (index.js).

    Conventions of the embedding:
    - the two registries the code mutates in place -- [activeFlows] and
      [db.clients] -- are finite maps keyed by client id; every operation
      takes the registry and returns the registry it leaves behind;
    - [new Date()] is a clock reading [now : Z] handed to the operation;
    - a JavaScript value stored under [stageData] is a [JsVal];
    - an operation returning [T | null] returns [option T];
    - a text that is processed character by character (the CSV file) is
      the list of its UTF-16 code units. *)

From stdpp Require Import gmap strings list fin_maps pretty.
From Stdlib Require Import ZArith QArith Lia Ascii.

Local Open Scope string_scope.
Local Open Scope Z_scope.

(** ** Stages *)

Inductive ConversationStage :=
  | welcome
  | intake_questions
  | summary_review
  | summary_confirmation
  | document_checklist
  | availability_inquiry
  | taxpro_routing
  | appointment_scheduling
  | reminders_setup
  | complete.

#[global] Instance ConversationStage_eq_dec : EqDecision ConversationStage.
Proof. solve_decision. Defined.

Definition stage_to_nat (s : ConversationStage) : nat :=
  match s with
  | welcome => 0 | intake_questions => 1 | summary_review => 2
  | summary_confirmation => 3 | document_checklist => 4
  | availability_inquiry => 5 | taxpro_routing => 6
  | appointment_scheduling => 7 | reminders_setup => 8 | complete => 9
  end%nat.

Definition stage_of_nat (n : nat) : ConversationStage :=
  match n with
  | 0 => welcome | 1 => intake_questions | 2 => summary_review
  | 3 => summary_confirmation | 4 => document_checklist
  | 5 => availability_inquiry | 6 => taxpro_routing
  | 7 => appointment_scheduling | 8 => reminders_setup | _ => complete
  end%nat.

#[global] Instance ConversationStage_countable : Countable ConversationStage.
Proof. refine (inj_countable' stage_to_nat stage_of_nat _). by intros []. Defined.

(** [const FLOW_SEQUENCE: ConversationStage[]] *)
Definition FLOW_SEQUENCE : list ConversationStage :=
  [ welcome; intake_questions; summary_review; summary_confirmation;
    document_checklist; availability_inquiry; taxpro_routing;
    appointment_scheduling; reminders_setup; complete ].

(** [Array.prototype.indexOf]: the position of the first occurrence, [-1]
    when there is none. *)
Fixpoint indexOf_from {A} `{EqDecision A} (x : A) (l : list A) (i : Z) : Z :=
  match l with
  | [] => -1
  | y :: r => if decide (y = x) then i else indexOf_from x r (i + 1)
  end.

Definition indexOf {A} `{EqDecision A} (l : list A) (x : A) : Z :=
  indexOf_from x l 0.

(** [Array.prototype.includes] *)
Definition includes {A} `{EqDecision A} (l : list A) (x : A) : bool :=
  bool_decide (x ∈ l).

(** [if (!l.includes(x)) l.push(x)] *)
Definition push_if_missing {A} `{EqDecision A} (l : list A) (x : A) : list A :=
  if includes l x then l else l ++ [x].

(** ** JavaScript values kept in [stageData] *)

Inductive AppointmentType := virtual | in_person.

#[global] Instance AppointmentType_eq_dec : EqDecision AppointmentType.
Proof. solve_decision. Defined.

Record SchedulePreferences := {
  preferredDates : list string;
  preferredTimes : list string;
  appointmentType : AppointmentType;
}.

#[global] Instance SchedulePreferences_eq_dec : EqDecision SchedulePreferences.
Proof. solve_decision. Defined.

Inductive JsVal :=
  | JUndefined
  | JNull
  | JBool (b : bool)
  | JNum (n : Z)
  | JStr (s : string)
  | JPrefs (p : SchedulePreferences).

#[global] Instance JsVal_eq_dec : EqDecision JsVal.
Proof. solve_decision. Defined.

(** JavaScript truthiness, as used by [x ? a : b] and [if (x)]. *)
Definition truthy (v : JsVal) : bool :=
  match v with
  | JUndefined | JNull => false
  | JBool b => b
  | JNum n => negb (Z.eqb n 0)
  | JStr s => negb (String.eqb s "")
  | JPrefs _ => true
  end.

(** [v === true] *)
Definition is_true_strict (v : JsVal) : bool :=
  match v with JBool true => true | _ => false end.

(** Truthiness of a string ([!!s], [if (s)]). *)
Definition truthy_str (s : string) : bool := negb (String.eqb s "").

(** Truthiness of an optional string field: [undefined] and [''] are falsy. *)
Definition truthy_opt_str (o : option string) : bool :=
  match o with Some s => truthy_str s | None => false end.

(** ** Records of the data model *)

(** Modelled from the spec: the type declarations (types/index.ts) are not
    among the sources. [ClientProfile] has the filing status, dependent
    count and tag lists of the spec's data model, followed by the five
    fields that the flow manager reads. *)
Record ClientProfile := {
  filingStatus : string;
  dependents : Z;
  incomeTypes : list string;
  deductions : list string;
  specialSituations : list string;
  intakeCompleted : bool;
  documentsCollected : list string;
  documentsPending : list string;
  assignedTaxPro : option string;
  appointmentId : option string;
}.

Record ConversationFlowState := {
  clientId : string;
  sessionId : string;
  currentStage : ConversationStage;
  completedStages : list ConversationStage;
  stageData : gmap ConversationStage (gmap string JsVal);
  startedAt : Z;
  lastActivityAt : Z;
  summaryConfirmed : bool;
  selectedTaxProId : option string;
  preferredSchedule : option SchedulePreferences;
}.

(** Field assignments [state.f = v]. *)
Definition set_currentStage (s : ConversationStage) (st : ConversationFlowState) :=
  {| clientId := clientId st; sessionId := sessionId st; currentStage := s;
     completedStages := completedStages st; stageData := stageData st;
     startedAt := startedAt st; lastActivityAt := lastActivityAt st;
     summaryConfirmed := summaryConfirmed st;
     selectedTaxProId := selectedTaxProId st;
     preferredSchedule := preferredSchedule st |}.

Definition set_completedStages (l : list ConversationStage) (st : ConversationFlowState) :=
  {| clientId := clientId st; sessionId := sessionId st;
     currentStage := currentStage st;
     completedStages := l; stageData := stageData st;
     startedAt := startedAt st; lastActivityAt := lastActivityAt st;
     summaryConfirmed := summaryConfirmed st;
     selectedTaxProId := selectedTaxProId st;
     preferredSchedule := preferredSchedule st |}.

Definition set_stageData (d : gmap ConversationStage (gmap string JsVal))
    (st : ConversationFlowState) :=
  {| clientId := clientId st; sessionId := sessionId st;
     currentStage := currentStage st;
     completedStages := completedStages st; stageData := d;
     startedAt := startedAt st; lastActivityAt := lastActivityAt st;
     summaryConfirmed := summaryConfirmed st;
     selectedTaxProId := selectedTaxProId st;
     preferredSchedule := preferredSchedule st |}.

Definition set_lastActivityAt (t : Z) (st : ConversationFlowState) :=
  {| clientId := clientId st; sessionId := sessionId st;
     currentStage := currentStage st;
     completedStages := completedStages st; stageData := stageData st;
     startedAt := startedAt st; lastActivityAt := t;
     summaryConfirmed := summaryConfirmed st;
     selectedTaxProId := selectedTaxProId st;
     preferredSchedule := preferredSchedule st |}.

Definition set_summaryConfirmed (b : bool) (st : ConversationFlowState) :=
  {| clientId := clientId st; sessionId := sessionId st;
     currentStage := currentStage st;
     completedStages := completedStages st; stageData := stageData st;
     startedAt := startedAt st; lastActivityAt := lastActivityAt st;
     summaryConfirmed := b;
     selectedTaxProId := selectedTaxProId st;
     preferredSchedule := preferredSchedule st |}.

Definition set_selectedTaxProId (o : option string) (st : ConversationFlowState) :=
  {| clientId := clientId st; sessionId := sessionId st;
     currentStage := currentStage st;
     completedStages := completedStages st; stageData := stageData st;
     startedAt := startedAt st; lastActivityAt := lastActivityAt st;
     summaryConfirmed := summaryConfirmed st;
     selectedTaxProId := o;
     preferredSchedule := preferredSchedule st |}.

Definition set_preferredSchedule (o : option SchedulePreferences)
    (st : ConversationFlowState) :=
  {| clientId := clientId st; sessionId := sessionId st;
     currentStage := currentStage st;
     completedStages := completedStages st; stageData := stageData st;
     startedAt := startedAt st; lastActivityAt := lastActivityAt st;
     summaryConfirmed := summaryConfirmed st;
     selectedTaxProId := selectedTaxProId st;
     preferredSchedule := o |}.

(** [state.stageData[stage]?.[key]] *)
Definition stage_field (st : ConversationFlowState) (stage : ConversationStage)
    (key : string) : JsVal :=
  match stageData st !! stage with
  | Some entry => default JUndefined (entry !! key)
  | None => JUndefined
  end.

(** ** STAGE_CONFIG *)

Record CompletionResult := {
  canProceed : bool;
  blockers : list string;
}.

Definition completion (ok : bool) (blocker_free : bool) (msg : string) :=
  {| canProceed := ok; blockers := if blocker_free then [] else [msg] |}.

(** [STAGE_CONFIG[stage].completionCheck(state, client)]; [client] is
    [None] for [undefined]. *)
Definition completionCheck (stage : ConversationStage)
    (state : ConversationFlowState) (client : option ClientProfile)
    : CompletionResult :=
  match stage with
  | welcome =>
      let hasSession :=
        truthy_str (sessionId state)
        && Z.ltb 0 (Z.of_nat (String.length (sessionId state))) in
      completion hasSession hasSession "Intake session must be started"
  | intake_questions =>
      let isComplete :=
        match client with Some c => intakeCompleted c | None => false end in
      completion isComplete isComplete "All intake questions must be completed"
  | summary_review =>
      let shown := stage_field state summary_review "shown" in
      completion (is_true_strict shown) (truthy shown)
        "Summary must be displayed to user"
  | summary_confirmation =>
      completion (summaryConfirmed state) (summaryConfirmed state)
        "User must confirm their summary information"
  | document_checklist =>
      let generated := stage_field state document_checklist "generated" in
      completion (is_true_strict generated) (truthy generated)
        "Document checklist must be generated and shown"
  | availability_inquiry =>
      let hasPreferences := bool_decide (preferredSchedule state ≠ None) in
      completion hasPreferences hasPreferences
        "Scheduling preferences must be collected"
  | taxpro_routing =>
      let hasTaxPro := bool_decide (selectedTaxProId state ≠ None) in
      completion hasTaxPro hasTaxPro "Tax professional must be selected"
  | appointment_scheduling =>
      let hasAppointment :=
        match client with
        | Some c => bool_decide (appointmentId c ≠ None)
        | None => false
        end in
      completion hasAppointment hasAppointment "Appointment must be created"
  | reminders_setup =>
      let created := stage_field state reminders_setup "created" in
      completion (is_true_strict created) (truthy created)
        "Reminders should be created"
  | complete => {| canProceed := true; blockers := [] |}
  end.

Definition nextAction (stage : ConversationStage) : string :=
  match stage with
  | welcome => "Start intake session and greet the user"
  | intake_questions => "Continue asking intake questions"
  | summary_review => "Generate and present the summary to the user"
  | summary_confirmation => "Wait for user confirmation or process edit requests"
  | document_checklist => "Generate and present the document checklist"
  | availability_inquiry => "Ask about appointment availability and preferences"
  | taxpro_routing => "Route client to appropriate tax professional"
  | appointment_scheduling => "Book the appointment"
  | reminders_setup => "Set up reminders for documents and appointment"
  | complete => "Provide closing summary and offer additional help"
  end.

Definition suggestedTools (stage : ConversationStage) : list string :=
  match stage with
  | welcome => ["start_intake"]
  | intake_questions => ["process_intake_response"; "get_intake_progress"]
  | summary_review => ["get_client_summary"]
  | summary_confirmation => ["process_intake_response"; "get_client_summary"]
  | document_checklist => ["generate_document_checklist"; "get_document_checklist"]
  | availability_inquiry => ["get_appointment_estimate"]
  | taxpro_routing =>
      ["calculate_complexity"; "route_to_tax_pro";
       "get_tax_pro_recommendations"; "list_tax_professionals"]
  | appointment_scheduling => ["create_appointment"]
  | reminders_setup =>
      ["create_document_reminders"; "get_client_reminders"; "get_pending_documents"]
  | complete => ["get_client"; "get_client_summary"]
  end.

(** ** The flow manager *)

Record FlowProgress := {
  current : Z;
  total : Z;
  percentage : Z;
}.

(** [FlowActionResult] without its [instructions] text, which no decision
    of the flow manager reads. *)
Record FlowActionResult := {
  res_currentStage : ConversationStage;
  res_nextAction : string;
  res_canProceed : bool;
  res_blockers : list string;
  res_suggestedTools : list string;
  res_progress : FlowProgress;
}.

(** [Math.round((n / d) * 100)] for [0 <= n] and [0 < d]: rounding half up. *)
Definition round_percent (n d : Z) : Z := (2 * n * 100 + d) / (2 * d).

(** [initializeFlow(clientId, sessionId)]: the new state and the registry
    after [activeFlows.set]. *)
Definition initializeFlow (now : Z) (flows : gmap string ConversationFlowState)
    (cid sid : string)
    : ConversationFlowState * gmap string ConversationFlowState :=
  let state :=
    {| clientId := cid; sessionId := sid; currentStage := welcome;
       completedStages := []; stageData := ∅;
       startedAt := now; lastActivityAt := now;
       summaryConfirmed := false;
       selectedTaxProId := None; preferredSchedule := None |} in
  (state, <[cid := state]> flows).

(** [getFlowState(clientId)] *)
Definition getFlowState (flows : gmap string ConversationFlowState)
    (cid : string) : option ConversationFlowState :=
  flows !! cid.

(** [getOrCreateFlowState(clientId, sessionId)] *)
Definition getOrCreateFlowState (now : Z)
    (flows : gmap string ConversationFlowState) (cid sid : string)
    : ConversationFlowState * gmap string ConversationFlowState :=
  match flows !! cid with
  | Some existing =>
      let existing' := set_lastActivityAt now existing in
      (existing', <[cid := existing']> flows)
  | None => initializeFlow now flows cid sid
  end.

(** [getFlowStatus(clientId)] *)
Definition getFlowStatus (flows : gmap string ConversationFlowState)
    (clients : gmap string ClientProfile) (cid : string)
    : option FlowActionResult :=
  match flows !! cid with
  | None => None
  | Some state =>
      let client := clients !! cid in
      let completionResult := completionCheck (currentStage state) state client in
      let currentIndex := indexOf FLOW_SEQUENCE (currentStage state) in
      let len := Z.of_nat (length FLOW_SEQUENCE) in
      Some {| res_currentStage := currentStage state;
              res_nextAction := nextAction (currentStage state);
              res_canProceed := canProceed completionResult;
              res_blockers := blockers completionResult;
              res_suggestedTools := suggestedTools (currentStage state);
              res_progress :=
                {| current := currentIndex + 1;
                   total := len;
                   percentage := round_percent (currentIndex + 1) len |} |}
  end.

(** The assignment [state.stageData[state.currentStage] = { ...old, ...stageData }]
    of [advanceFlow]; an absent [stageData] argument stores nothing. *)
Definition store_stage_data (stageData_arg : option (gmap string JsVal))
    (state : ConversationFlowState) : ConversationFlowState :=
  match stageData_arg with
  | Some sd =>
      let old := default ∅ (stageData state !! currentStage state) in
      set_stageData (<[currentStage state := sd ∪ old]> (stageData state)) state
  | None => state
  end.

(** The body of [if (updatedResult.canProceed) { ... }] in [advanceFlow]. *)
Definition mark_and_move (now : Z) (state : ConversationFlowState)
    : ConversationFlowState :=
  let state1 :=
    set_completedStages
      (push_if_missing (completedStages state) (currentStage state)) state in
  let currentIndex := indexOf FLOW_SEQUENCE (currentStage state1) in
  let state2 :=
    if Z.ltb currentIndex (Z.of_nat (length FLOW_SEQUENCE) - 1) then
      match FLOW_SEQUENCE !! Z.to_nat (currentIndex + 1) with
      | Some next => set_currentStage next state1
      | None => state1
      end
    else state1 in
  set_lastActivityAt now state2.

(** What [advanceFlow] does to a state that exists. *)
Definition advance_state (now : Z) (client : option ClientProfile)
    (stageData_arg : option (gmap string JsVal))
    (state : ConversationFlowState) : ConversationFlowState :=
  let state1 := store_stage_data stageData_arg state in
  let updatedResult := completionCheck (currentStage state1) state1 client in
  if canProceed updatedResult then mark_and_move now state1 else state1.

(** [advanceFlow(clientId, stageData?)] *)
Definition advanceFlow (now : Z) (flows : gmap string ConversationFlowState)
    (clients : gmap string ClientProfile) (cid : string)
    (stageData_arg : option (gmap string JsVal))
    : option FlowActionResult * gmap string ConversationFlowState :=
  match flows !! cid with
  | None => (None, flows)
  | Some state =>
      let flows' :=
        <[cid := advance_state now (clients !! cid) stageData_arg state]> flows in
      (getFlowStatus flows' clients cid, flows')
  end.

(** [confirmSummary(clientId)] *)
Definition confirmSummary (now : Z) (flows : gmap string ConversationFlowState)
    (clients : gmap string ClientProfile) (cid : string)
    : option FlowActionResult * gmap string ConversationFlowState :=
  match flows !! cid with
  | None => (None, flows)
  | Some state =>
      let state1 := set_summaryConfirmed true state in
      let state2 :=
        set_stageData
          (<[summary_confirmation := {[ "confirmed" := JBool true ]}]>
             (stageData state1)) state1 in
      advanceFlow now (<[cid := state2]> flows) clients cid None
  end.

(** [setSchedulingPreferences(clientId, preferences)] *)
Definition setSchedulingPreferences (now : Z)
    (flows : gmap string ConversationFlowState)
    (clients : gmap string ClientProfile) (cid : string)
    (preferences : SchedulePreferences)
    : option FlowActionResult * gmap string ConversationFlowState :=
  match flows !! cid with
  | None => (None, flows)
  | Some state =>
      let state1 := set_preferredSchedule (Some preferences) state in
      let state2 :=
        set_stageData
          (<[availability_inquiry :=
               <["collected" := JBool true]>
                 {[ "preferences" := JPrefs preferences ]}]>
             (stageData state1)) state1 in
      advanceFlow now (<[cid := state2]> flows) clients cid None
  end.

(** [setSelectedTaxPro(clientId, taxProId)] *)
Definition setSelectedTaxPro (now : Z)
    (flows : gmap string ConversationFlowState)
    (clients : gmap string ClientProfile) (cid : string) (taxProId : string)
    : option FlowActionResult * gmap string ConversationFlowState :=
  match flows !! cid with
  | None => (None, flows)
  | Some state =>
      let state1 := set_selectedTaxProId (Some taxProId) state in
      let state2 :=
        set_stageData
          (<[taxpro_routing :=
               <["selected" := JBool true]> {[ "taxProId" := JStr taxProId ]}]>
             (stageData state1)) state1 in
      advanceFlow now (<[cid := state2]> flows) clients cid None
  end.

(** The four blocks of [if (client) { ... }] in [syncFlowWithState], in
    the order of the source. *)

(** [if (client.intakeCompleted && !state.summaryConfirmed) { ... }] *)
Definition sync_intake (client : ClientProfile)
    (state : ConversationFlowState) : ConversationFlowState :=
  if intakeCompleted client && negb (summaryConfirmed state) then
    let state1 :=
      set_completedStages
        (push_if_missing
           (push_if_missing (completedStages state) welcome)
           intake_questions) state in
    if bool_decide (currentStage state1 = welcome)
       || bool_decide (currentStage state1 = intake_questions)
    then set_currentStage summary_review state1
    else state1
  else state.

(** [if (client.documentsCollected.length > 0 || client.documentsPending.length > 0)] *)
Definition sync_checklist (client : ClientProfile)
    (state : ConversationFlowState) : ConversationFlowState :=
  if Z.ltb 0 (Z.of_nat (length (documentsCollected client)))
     || Z.ltb 0 (Z.of_nat (length (documentsPending client)))
  then
    set_stageData
      (<[document_checklist := {[ "generated" := JBool true ]}]>
         (stageData state)) state
  else state.

(** [if (client.assignedTaxPro) { ... }] *)
Definition sync_taxpro (client : ClientProfile)
    (state : ConversationFlowState) : ConversationFlowState :=
  if truthy_opt_str (assignedTaxPro client)
  then set_selectedTaxProId (assignedTaxPro client) state
  else state.

(** [if (client.appointmentId) { ... }] *)
Definition sync_appointment (client : ClientProfile)
    (state : ConversationFlowState) : ConversationFlowState :=
  if truthy_opt_str (appointmentId client)
  then
    set_completedStages
      (push_if_missing (completedStages state) appointment_scheduling) state
  else state.

Definition sync_with_client (client : ClientProfile)
    (state : ConversationFlowState) : ConversationFlowState :=
  sync_appointment client
    (sync_taxpro client (sync_checklist client (sync_intake client state))).

(** [syncFlowWithState(clientId, sessionId)] *)
Definition syncFlowWithState (now : Z)
    (flows : gmap string ConversationFlowState)
    (clients : gmap string ClientProfile) (cid sid : string)
    : ConversationFlowState * gmap string ConversationFlowState :=
  let client := clients !! cid in
  let '(state, flows1) :=
    match flows !! cid with
    | Some state => (state, flows)
    | None => initializeFlow now flows cid sid
    end in
  let state1 :=
    match client with
    | Some c => sync_with_client c state
    | None => state
    end in
  let state2 := set_lastActivityAt now state1 in
  (state2, <[cid := state2]> flows1).

(** ** Sequences of flow operations *)

Inductive FlowOp :=
  | OpInitializeFlow (cid sid : string)
  | OpAdvanceFlow (cid : string) (stageData_arg : option (gmap string JsVal))
  | OpConfirmSummary (cid : string)
  | OpSetSchedulingPreferences (cid : string) (preferences : SchedulePreferences)
  | OpSetSelectedTaxPro (cid taxProId : string)
  | OpSyncFlowWithState (cid sid : string).

(** One call, made at clock reading [now] while the client store holds
    [clients]; the result is the registry the call leaves behind. *)
Definition run_op (now : Z) (clients : gmap string ClientProfile) (op : FlowOp)
    (flows : gmap string ConversationFlowState)
    : gmap string ConversationFlowState :=
  match op with
  | OpInitializeFlow cid sid => (initializeFlow now flows cid sid).2
  | OpAdvanceFlow cid sd => (advanceFlow now flows clients cid sd).2
  | OpConfirmSummary cid => (confirmSummary now flows clients cid).2
  | OpSetSchedulingPreferences cid p =>
      (setSchedulingPreferences now flows clients cid p).2
  | OpSetSelectedTaxPro cid t => (setSelectedTaxPro now flows clients cid t).2
  | OpSyncFlowWithState cid sid => (syncFlowWithState now flows clients cid sid).2
  end.

(** Registries obtained from the empty one by any number of calls; the
    client store is whatever the other services made of it at each call. *)
Inductive reachable : gmap string ConversationFlowState → Prop :=
  | reachable_empty : reachable ∅
  | reachable_step now clients op flows :
      reachable flows → reachable (run_op now clients op flows).

(** A script of calls, each with its clock reading and client store. *)
Fixpoint run_ops (script : list (Z * gmap string ClientProfile * FlowOp))
    (flows : gmap string ConversationFlowState)
    : gmap string ConversationFlowState :=
  match script with
  | [] => flows
  | (now, clients, op) :: rest => run_ops rest (run_op now clients op flows)
  end.

Definition stage_index (s : ConversationStage) : Z := indexOf FLOW_SEQUENCE s.

(** ** Tax professionals: roster and loader *)

Inductive Specialization :=
  | individual
  | self_employment
  | small_business
  | investments
  | real_estate
  | crypto
  | foreign_income
  | estate_planning
  | audit_representation.

#[global] Instance Specialization_eq_dec : EqDecision Specialization.
Proof. solve_decision. Defined.

Inductive ComplexityLevel := simple | moderate | complex | expert.

#[global] Instance ComplexityLevel_eq_dec : EqDecision ComplexityLevel.
Proof. solve_decision. Defined.

(** Position of a level in the order simple < moderate < complex < expert. *)
Definition level_ordinal (l : ComplexityLevel) : Z :=
  match l with simple => 0 | moderate => 1 | complex => 2 | expert => 3 end.

Record TaxProfessional := {
  tp_id : string;
  tp_name : string;
  tp_email : string;
  specializations : list Specialization;
  maxComplexity : ComplexityLevel;
  currentLoad : Z;
  maxDailyAppointments : Z;
  available : bool;
  rating : Q;
}.

(** [determineMaxComplexity(minLevel, maxLevel)] of the roster loader. *)
Definition determineMaxComplexity (minLevel maxLevel : Z) : ComplexityLevel :=
  if Z.leb 81 maxLevel then expert
  else if Z.leb 51 maxLevel then complex
  else if Z.leb 21 maxLevel then moderate
  else simple.

(** [Database.getAvailableTaxPros()], over the roster in insertion order. *)
Definition getAvailableTaxPros (taxPros : list TaxProfessional)
    : list TaxProfessional :=
  List.filter
    (λ tp, available tp && Z.ltb (currentLoad tp) (maxDailyAppointments tp))
    taxPros.

(** ** The routing engine

    services/routing.ts is not among the sources (only its declarations,
    routing.d.ts, are); its functions are modelled from the specification. *)

(** Modelled from the spec: [getComplexityLevel] of the missing routing.ts;
    the four tiers simple [0,20], moderate [21,50], complex [51,80],
    expert [81,100]. *)
Definition getComplexityLevel (score : Z) : ComplexityLevel :=
  if Z.leb score 20 then simple
  else if Z.leb score 50 then moderate
  else if Z.leb score 80 then complex
  else expert.

(** Modelled from the spec: the contribution of a list of tags to the
    additive score, each tag with its fixed weight. *)
Definition sum_weights (w : string → Z) (tags : list string) : Z :=
  foldr (λ t acc, w t + acc) 0 tags.

(** The client after one more special-situation tag was recorded. *)
Definition add_special_situation (t : string) (c : ClientProfile) : ClientProfile :=
  {| filingStatus := filingStatus c; dependents := dependents c;
     incomeTypes := incomeTypes c; deductions := deductions c;
     specialSituations := specialSituations c ++ [t];
     intakeCompleted := intakeCompleted c;
     documentsCollected := documentsCollected c;
     documentsPending := documentsPending c;
     assignedTaxPro := assignedTaxPro c;
     appointmentId := appointmentId c |}.

(** Modelled from the spec: what the [reason] text of a routing result is
    about (the spec fixes its subject, not its wording). *)
Inductive RoutingReason :=
  | Matched (level : ComplexityLevel) (required : list Specialization)
  | NoEligibleMatch (level : ComplexityLevel) (required : list Specialization).

(** The result of [findBestTaxPro], as routing.d.ts declares it. *)
Record RoutingResult := {
  taxPro : option TaxProfessional;
  reason : RoutingReason;
  alternates : list TaxProfessional;
}.

(** Modelled from the spec: the ranking among candidates; higher rating
    first, then lower current load, then the smaller id. *)
Definition ranks_before (a b : TaxProfessional) : bool :=
  if Qeq_bool (rating a) (rating b) then
    if Z.eqb (currentLoad a) (currentLoad b)
    then String.leb (tp_id a) (tp_id b)
    else Z.ltb (currentLoad a) (currentLoad b)
  else Qle_bool (rating b) (rating a).

(** Modelled from the spec: sorting by [ranks_before], by insertion. *)
Fixpoint insert_ranked (tp : TaxProfessional) (l : list TaxProfessional)
    : list TaxProfessional :=
  match l with
  | [] => [tp]
  | x :: r => if ranks_before tp x then tp :: l else x :: insert_ranked tp r
  end.

Definition rank (l : list TaxProfessional) : list TaxProfessional :=
  foldr insert_ranked [] l.

Section RoutingEngine.

(** The weight table and the tag-to-specialization table are left open
    by the spec ("an implementation detail"). *)
Variable filingStatusWeight : string → Z.
Variable dependentsWeight : Z → Z.
Variable incomeWeight : string → Z.
Variable deductionWeight : string → Z.

(** Modelled from the spec: what a special-situation tag contributes is a
    fixed weight that is never negative ("each special situation
    contributes a fixed positive weight"), hence a natural number; the
    table cannot take anything away from the score. *)
Variable specialWeight : string → N.
Variable specializationOfTag : string → list Specialization.

(** Modelled from the spec: the sum of the weighted contributions of
    filing status, dependents, income types, deductions and special
    situations. *)
Definition raw_score (c : ClientProfile) : Z :=
  filingStatusWeight (filingStatus c)
  + dependentsWeight (dependents c)
  + sum_weights incomeWeight (incomeTypes c)
  + sum_weights deductionWeight (deductions c)
  + sum_weights (λ tag, Z.of_N (specialWeight tag)) (specialSituations c).

(** Modelled from the spec: [calculateComplexityScore] of the missing
    routing.ts; the additive score, kept within [0,100]. *)
Definition calculateComplexityScore (c : ClientProfile) : Z :=
  Z.max 0 (Z.min 100 (raw_score c)).

(** Modelled from the spec: [getRequiredSpecializations] of the missing
    routing.ts; the specializations of the special-situation tags
    present, [individual] alone when there is none. *)
Definition getRequiredSpecializations (c : ClientProfile)
    : list Specialization :=
  match remove_dups (flat_map specializationOfTag (specialSituations c)) with
  | [] => [individual]
  | specs => specs
  end.

(** Modelled from the spec: membership in the candidate pool of
    [findBestTaxPro]. *)
Definition eligible (level : ComplexityLevel) (required : list Specialization)
    (tp : TaxProfessional) : bool :=
  Z.leb (level_ordinal level) (level_ordinal (maxComplexity tp))
  && forallb (λ s, includes (specializations tp) s) required
  && available tp
  && Z.ltb (currentLoad tp) (maxDailyAppointments tp).

(** Modelled from the spec: the number of alternates returned at most. *)
Definition maxAlternates : nat := 2.

(** Modelled from the spec: [findBestTaxPro] of the missing routing.ts,
    over the roster [taxPros]; the best-ranked candidate, and the next
    ones as alternates. *)
Definition findBestTaxPro (taxPros : list TaxProfessional) (c : ClientProfile)
    : RoutingResult :=
  let level := getComplexityLevel (calculateComplexityScore c) in
  let required := getRequiredSpecializations c in
  match rank (List.filter (eligible level required) taxPros) with
  | [] =>
      {| taxPro := None; reason := NoEligibleMatch level required;
         alternates := [] |}
  | best :: others =>
      {| taxPro := Some best; reason := Matched level required;
         alternates := take maxAlternates others |}
  end.

End RoutingEngine.

(** ** Concrete scenarios *)

Definition example_client (intake_done : bool) (appointment : option string)
    : ClientProfile :=
  {| filingStatus := "single"; dependents := 0; incomeTypes := ["w2"];
     deductions := []; specialSituations := [];
     intakeCompleted := intake_done;
     documentsCollected := []; documentsPending := [];
     assignedTaxPro := None; appointmentId := appointment |}.

(** The client store while intake is running, once intake is completed,
    and once an appointment was booked. *)
Definition db_intake_running : gmap string ClientProfile :=
  {[ "c1" := example_client false None ]}.

Definition db_intake_done : gmap string ClientProfile :=
  {[ "c1" := example_client true None ]}.

Definition db_appointment_booked : gmap string ClientProfile :=
  {[ "c1" := example_client true (Some "apt-1") ]}.

(** An appointment booked through the appointment service while the
    conversation has not yet completed intake. *)
Definition db_appointment_early : gmap string ClientProfile :=
  {[ "c1" := example_client false (Some "apt-1") ]}.

Definition example_preferences : SchedulePreferences :=
  {| preferredDates := ["2025-03-01"]; preferredTimes := ["10:00"];
     appointmentType := virtual |}.

(** A conversation that goes through the ten stages in order. *)
Definition full_conversation : list (Z * gmap string ClientProfile * FlowOp) :=
  [ (0, db_intake_running, OpInitializeFlow "c1" "s1");
    (1, db_intake_running, OpAdvanceFlow "c1" (Some {[ "started" := JBool true ]}));
    (2, db_intake_done, OpAdvanceFlow "c1" (Some {[ "completed" := JBool true ]}));
    (3, db_intake_done, OpAdvanceFlow "c1" (Some {[ "shown" := JBool true ]}));
    (4, db_intake_done, OpConfirmSummary "c1");
    (5, db_intake_done, OpAdvanceFlow "c1" (Some {[ "generated" := JBool true ]}));
    (6, db_intake_done, OpSetSchedulingPreferences "c1" example_preferences);
    (7, db_intake_done, OpSetSelectedTaxPro "c1" "tp-001");
    (8, db_appointment_booked, OpAdvanceFlow "c1" (Some {[ "created" := JBool true ]}));
    (9, db_appointment_booked, OpAdvanceFlow "c1" (Some {[ "created" := JBool true ]})) ].

(** A flow that is just initialized and then resynchronized when the
    client already has an appointment. *)
Definition early_appointment_sync : list (Z * gmap string ClientProfile * FlowOp) :=
  [ (0, db_appointment_early, OpInitializeFlow "c1" "s1");
    (1, db_appointment_early, OpSyncFlowWithState "c1" "s1") ].

(** The roster that [Database.initializeTaxPros] falls back to. *)
Definition fallbackPros : list TaxProfessional :=
  [ {| tp_id := "tp-001"; tp_name := "Sarah Johnson";
       tp_email := "sarah.johnson@taxfirm.com";
       specializations := [individual; self_employment];
       maxComplexity := moderate; currentLoad := 3;
       maxDailyAppointments := 8; available := true; rating := 48 # 10 |};
    {| tp_id := "tp-002"; tp_name := "Michael Chen";
       tp_email := "michael.chen@taxfirm.com";
       specializations := [investments; crypto; foreign_income];
       maxComplexity := expert; currentLoad := 5;
       maxDailyAppointments := 6; available := true; rating := 49 # 10 |};
    {| tp_id := "tp-003"; tp_name := "Emily Rodriguez";
       tp_email := "emily.rodriguez@taxfirm.com";
       specializations := [small_business; self_employment; real_estate];
       maxComplexity := complex; currentLoad := 4;
       maxDailyAppointments := 7; available := true; rating := 47 # 10 |};
    {| tp_id := "tp-004"; tp_name := "James Wilson";
       tp_email := "james.wilson@taxfirm.com";
       specializations := [individual];
       maxComplexity := simple; currentLoad := 6;
       maxDailyAppointments := 12; available := true; rating := 45 # 10 |};
    {| tp_id := "tp-005"; tp_name := "Dr. Patricia Martinez";
       tp_email := "patricia.martinez@taxfirm.com";
       specializations := [estate_planning; foreign_income; audit_representation];
       maxComplexity := expert; currentLoad := 2;
       maxDailyAppointments := 4; available := true; rating := 50 # 10 |} ].

(** One weight table and one tag table, to run the routing engine on. *)
Definition example_filing_weight (status : string) : Z :=
  if String.eqb status "married_joint" then 5 else 0.

Definition example_dependents_weight (n : Z) : Z := Z.min 10 (2 * n).

Definition example_income_weight (tag : string) : Z :=
  if String.eqb tag "w2" then 5 else 15.

Definition example_deduction_weight (tag : string) : Z :=
  if String.eqb tag "standard" then 0 else 10.

Definition example_special_weight (tag : string) : N :=
  if String.eqb tag "crypto" then 50%N
  else if String.eqb tag "foreign_accounts" then 50%N
  else 20%N.

Definition example_specialization_of_tag (tag : string) : list Specialization :=
  if String.eqb tag "crypto" then [crypto]
  else if String.eqb tag "foreign_accounts" then [foreign_income]
  else if String.eqb tag "rental" then [real_estate]
  else if String.eqb tag "self_employment" then [self_employment]
  else [].

Definition example_score : ClientProfile → Z :=
  calculateComplexityScore example_filing_weight example_dependents_weight
    example_income_weight example_deduction_weight example_special_weight.

Definition example_findBestTaxPro
    : list TaxProfessional → ClientProfile → RoutingResult :=
  findBestTaxPro example_filing_weight example_dependents_weight
    example_income_weight example_deduction_weight example_special_weight
    example_specialization_of_tag.

Definition crypto_client : ClientProfile :=
  add_special_situation "crypto"
    (add_special_situation "foreign_accounts" (example_client true None)).

(** ** Statements about flow states *)

(** [completedStages], as a set, is exactly the set of the stages that
    precede [currentStage] in [FLOW_SEQUENCE]. *)
Definition completed_exactly_preceding (st : ConversationFlowState) : Prop :=
  ∀ s, s ∈ completedStages st ↔ stage_index s < stage_index (currentStage st).

(** What the flow operations do maintain: no duplicates, every preceding
    stage is recorded, and the only other stages that can be recorded are
    [appointment_scheduling] and, at the end of the flow, [complete]. *)
Definition inv_on (cur : ConversationStage) (completed : list ConversationStage)
    : Prop :=
  NoDup completed
  ∧ (∀ s, stage_index s < stage_index cur → s ∈ completed)
  ∧ (∀ s, s ∈ completed →
       stage_index s < stage_index cur
       ∨ s = appointment_scheduling
       ∨ (s = complete ∧ cur = complete)).

Definition flow_inv (st : ConversationFlowState) : Prop :=
  inv_on (currentStage st) (completedStages st).

Definition registry_inv (flows : gmap string ConversationFlowState) : Prop :=
  ∀ cid st, flows !! cid = Some st → flow_inv st.

(** C1 as the specification states it: in every reachable registry the
    completed stages of a flow are exactly the stages that precede its
    current stage. *)
Definition completed_always_exactly_preceding : Prop :=
  ∀ flows cid st,
    reachable flows → flows !! cid = Some st → completed_exactly_preceding st.


(** C4 as the specification states it: with an unchanged client store, a
    second call with the same arguments returns the very state that the
    first call returned. *)
Definition syncFlowWithState_returns_identical_state : Prop :=
  ∀ now1 now2 flows clients cid sid,
    let first := syncFlowWithState now1 flows clients cid sid in
    let second := syncFlowWithState now2 first.2 clients cid sid in
    second.1 = first.1.

(** The client's intake is not completed: the store has no profile for the
    client yet, or a profile whose [intakeCompleted] flag is off. *)
Definition intake_not_completed (clients : gmap string ClientProfile)
    (cid : string) : Prop :=
  match clients !! cid with
  | Some c => intakeCompleted c = false
  | None => True
  end.

(** The state that a call of [syncFlowWithState] starts from: the stored
    one, or a new one at [welcome]. *)
Definition sync_start (now : Z) (flows : gmap string ConversationFlowState)
    (cid sid : string) : ConversationFlowState :=
  match flows !! cid with
  | Some st => st
  | None => (initializeFlow now flows cid sid).1
  end.

(** ** Further operations of the flow manager *)

(** [STAGE_CONFIG[stage].description] *)
Definition description (stage : ConversationStage) : string :=
  match stage with
  | welcome => "Initial greeting and session setup"
  | intake_questions => "Collecting all tax information from the user"
  | summary_review => "Generating and displaying the intake summary"
  | summary_confirmation => "Waiting for user to confirm or request edits"
  | document_checklist => "Generating the personalized document checklist"
  | availability_inquiry => "Asking about scheduling preferences"
  | taxpro_routing => "Matching with the right tax professional"
  | appointment_scheduling => "Creating the appointment"
  | reminders_setup => "Setting up document and appointment reminders"
  | complete => "Conversation flow completed"
  end.

(** The string value of a stage, as the [ConversationStage] union has it. *)
Definition stage_name (stage : ConversationStage) : string :=
  match stage with
  | welcome => "welcome"
  | intake_questions => "intake_questions"
  | summary_review => "summary_review"
  | summary_confirmation => "summary_confirmation"
  | document_checklist => "document_checklist"
  | availability_inquiry => "availability_inquiry"
  | taxpro_routing => "taxpro_routing"
  | appointment_scheduling => "appointment_scheduling"
  | reminders_setup => "reminders_setup"
  | complete => "complete"
  end.

(** The line feed of the template literals. *)
Definition nl : string := String (Ascii.ascii_of_nat 10) "".

(** [.replace(/_/g, ' ')] *)
Fixpoint replace_underscores (s : string) : string :=
  match s with
  | "" => ""
  | String c r =>
      String (if Ascii.eqb c "_"%char then " "%char else c) (replace_underscores r)
  end.

(** [.toUpperCase()] on the letters a-z, the only ones in stage names. *)
Definition upper_ascii (c : Ascii.ascii) : Ascii.ascii :=
  let n := Ascii.nat_of_ascii c in
  if (Nat.leb 97 n && Nat.leb n 122)%bool then Ascii.ascii_of_nat (n - 32) else c.

Fixpoint toUpperCase (s : string) : string :=
  match s with
  | "" => ""
  | String c r => String (upper_ascii c) (toUpperCase r)
  end.

Definition marker_completed : string := "✅".
Definition marker_current : string := "🔵".
Definition marker_pending : string := "⬜".

(** The status that [getFlowProgressDisplay] shows for the stage at
    position [index]. *)
Definition stage_marker (state : ConversationFlowState) (currentIndex : Z)
    (index : nat) (stage : ConversationStage) : string :=
  if includes (completedStages state) stage then marker_completed
  else if Z.eqb (Z.of_nat index) currentIndex then marker_current
  else marker_pending.

(** The markers of the ten stages, in the order of the display. *)
Definition display_markers (state : ConversationFlowState) : list string :=
  imap (stage_marker state (indexOf FLOW_SEQUENCE (currentStage state)))
    FLOW_SEQUENCE.

(** What the display has for one stage after its marker: the number, the
    name in capitals, and the description on the line below. *)
Definition stage_lines (index : nat) (stage : ConversationStage) : string :=
  " **" +:+ pretty (Z.of_nat index + 1) +:+ ". "
  +:+ toUpperCase (replace_underscores (stage_name stage)) +:+ "**" +:+ nl
  +:+ "   " +:+ description stage +:+ nl +:+ nl.

(** The text of a display, given the marker of each stage and the
    percentage: the heading, for each stage its marker followed by its
    lines, and the progress line. *)
Definition display_text (markers : list string) (percentage : Z) : string :=
  ("## Conversation Flow Progress" +:+ nl +:+ nl
   +:+ String.concat ""
         (zip_with String.append markers (imap stage_lines FLOW_SEQUENCE)))
  +:+ nl +:+ "**Progress:** " +:+ pretty percentage +:+ "% complete".

(** The two lines that the display has for one stage. *)
Definition display_stage (state : ConversationFlowState) (currentIndex : Z)
    (index : nat) (stage : ConversationStage) : string :=
  stage_marker state currentIndex index stage
  +:+ " **" +:+ pretty (Z.of_nat index + 1) +:+ ". "
  +:+ toUpperCase (replace_underscores (stage_name stage)) +:+ "**" +:+ nl
  +:+ "   " +:+ description stage +:+ nl +:+ nl.

(** [getFlowProgressDisplay(clientId)] *)
Definition getFlowProgressDisplay (flows : gmap string ConversationFlowState)
    (cid : string) : string :=
  match flows !! cid with
  | None => "No active conversation flow found."
  | Some state =>
      let currentIndex := indexOf FLOW_SEQUENCE (currentStage state) in
      let display :=
        "## Conversation Flow Progress" +:+ nl +:+ nl
        +:+ String.concat ""
              (imap (display_stage state currentIndex) FLOW_SEQUENCE) in
      let percentage :=
        round_percent (currentIndex + 1) (Z.of_nat (length FLOW_SEQUENCE)) in
      display +:+ nl +:+ "**Progress:** " +:+ pretty percentage +:+ "% complete"
  end.

(** The client that a flow operation is about. *)
Definition op_client (op : FlowOp) : string :=
  match op with
  | OpInitializeFlow cid _ | OpAdvanceFlow cid _ | OpConfirmSummary cid
  | OpSetSchedulingPreferences cid _ | OpSetSelectedTaxPro cid _
  | OpSyncFlowWithState cid _ => cid
  end.

Definition is_initialize (op : FlowOp) : bool :=
  match op with OpInitializeFlow _ _ => true | _ => false end.

(** What a flow keeps from one call to the next: its identity, its
    confirmations and its progress. *)
Definition keeps_progress (st st' : ConversationFlowState) : Prop :=
  clientId st' = clientId st
  ∧ sessionId st' = sessionId st
  ∧ startedAt st' = startedAt st
  ∧ stage_index (currentStage st) ≤ stage_index (currentStage st')
  ∧ completedStages st `prefix_of` completedStages st'
  ∧ (summaryConfirmed st = true → summaryConfirmed st' = true)
  ∧ (is_Some (preferredSchedule st) → is_Some (preferredSchedule st'))
  ∧ (is_Some (selectedTaxProId st) → is_Some (selectedTaxProId st')).

(** The flow part of the tool handlers of the MCP server (index.js); the
    intake, checklist and appointment services they call first act on the
    client store, which is the [clients] argument here. *)

(** [case 'get_client_summary']: the summary counts as shown only when the
    flow is at [summary_review]. *)
Definition tool_get_client_summary (now : Z)
    (flows : gmap string ConversationFlowState)
    (clients : gmap string ClientProfile) (cid : string)
    : gmap string ConversationFlowState :=
  match getFlowState flows cid with
  | Some flowState =>
      if bool_decide (currentStage flowState = summary_review)
      then (advanceFlow now flows clients cid (Some {[ "shown" := JBool true ]})).2
      else flows
  | None => flows
  end.

(** [case 'create_appointment']: two calls of [advanceFlow], the first for
    the appointment and the second for the reminders scheduled with it. *)
Definition tool_create_appointment (now1 now2 : Z)
    (flows : gmap string ConversationFlowState)
    (clients : gmap string ClientProfile) (cid : string)
    (appointment_id : string) (reminderCount : Z)
    : gmap string ConversationFlowState :=
  let flows1 :=
    (advanceFlow now1 flows clients cid
       (Some (<["created" := JBool true]>
                {[ "appointmentId" := JStr appointment_id ]}))).2 in
  (advanceFlow now2 flows1 clients cid
     (Some (<["created" := JBool true]>
              {[ "reminderCount" := JNum reminderCount ]}))).2.

(** The stage-data key that the completion check of a stage reads, for
    the three stages whose check reads one. *)
Definition marker_key (stage : ConversationStage) : option string :=
  match stage with
  | summary_review => Some "shown"
  | document_checklist => Some "generated"
  | reminders_setup => Some "created"
  | _ => None
  end.

(** The value under that key in the data of the stage itself. *)
Definition marker_value (stage : ConversationStage)
    (state : ConversationFlowState) : option JsVal :=
  stage_field state stage <$> marker_key stage.

(** Whether [syncFlowWithState] moves the flow: the client's intake is
    completed, the summary is not confirmed, and the flow is still at one
    of the two intake stages. *)
Definition sync_backfills (client : option ClientProfile)
    (state : ConversationFlowState) : bool :=
  match client with
  | Some c =>
      intakeCompleted c && negb (summaryConfirmed state)
      && (bool_decide (currentStage state = welcome)
          || bool_decide (currentStage state = intake_questions))
  | None => false
  end.

(** The client has an appointment, as the check of
    [appointment_scheduling] sees it. *)
Definition has_appointment (clients : gmap string ClientProfile)
    (cid : string) : Prop :=
  ∃ c, clients !! cid = Some c ∧ appointmentId c ≠ None.

(** Whether the client has any document, collected or pending, as
    [syncFlowWithState] tests it. *)
Definition has_documents (client : option ClientProfile) : bool :=
  match client with
  | Some c =>
      Z.ltb 0 (Z.of_nat (length (documentsCollected c)))
      || Z.ltb 0 (Z.of_nat (length (documentsPending c)))
  | None => false
  end.

(** How often a marker occurs in a display. *)
Definition count_markers (m : string) (markers : list string) : nat :=
  length (filter (λ x, x = m) markers).

Definition db_documents_pending : gmap string ClientProfile :=
  {[ "c1" :=
       {| filingStatus := "single"; dependents := 0; incomeTypes := ["w2"];
          deductions := []; specialSituations := [];
          intakeCompleted := true;
          documentsCollected := []; documentsPending := ["W-2"];
          assignedTaxPro := Some "tp-001"; appointmentId := None |} ]}.

(** ** The database (database/index.js)

    A JavaScript [Map] with string keys is the list of its entries in
    insertion order, one entry per key. *)

(** [Map.prototype.set]: an existing key keeps its place. *)
Fixpoint map_set {V} (k : string) (v : V) (m : list (string * V))
    : list (string * V) :=
  match m with
  | [] => [(k, v)]
  | (k', v') :: r =>
      if String.eqb k' k then (k, v) :: r else (k', v') :: map_set k v r
  end.

(** [Map.prototype.get]; [None] for [undefined]. *)
Fixpoint map_get {V} (k : string) (m : list (string * V)) : option V :=
  match m with
  | [] => None
  | (k', v') :: r => if String.eqb k' k then Some v' else map_get k r
  end.

(** [Array.from(map.values())] *)
Definition map_values {V} (m : list (string * V)) : list V := map snd m.

(** [pros.forEach((tp) => this.taxPros.set(tp.id, tp))] on the empty map. *)
Definition store_all (pros : list TaxProfessional)
    : list (string * TaxProfessional) :=
  foldl (λ m tp, map_set (tp_id tp) tp m) [] pros.

(** [Database.initializeTaxPros()] of database/index.js: the five
    hard-coded professionals. *)
Definition initializeTaxPros : list (string * TaxProfessional) :=
  store_all fallbackPros.

(** The two professionals that the variant of the database with the CSV
    loader falls back to. *)
Definition csvFallbackPros : list TaxProfessional :=
  [ {| tp_id := "tp-001"; tp_name := "Sarah Johnson";
       tp_email := "sarah.johnson@taxfirm.com";
       specializations := [individual; self_employment];
       maxComplexity := moderate; currentLoad := 3;
       maxDailyAppointments := 8; available := true; rating := 48 # 10 |};
    {| tp_id := "tp-002"; tp_name := "Michael Chen";
       tp_email := "michael.chen@taxfirm.com";
       specializations := [investments; crypto; foreign_income];
       maxComplexity := expert; currentLoad := 5;
       maxDailyAppointments := 6; available := true; rating := 49 # 10 |} ].

(** [Database.initializeTaxPros()] of the variant with the CSV loader,
    given what [loadTaxProsFromCSV()] returned: the loaded professionals,
    or the two hard-coded ones when none was loaded. *)
Definition initializeTaxProsFromCSV (loaded : list TaxProfessional)
    : list (string * TaxProfessional) :=
  if Z.ltb 0 (Z.of_nat (length loaded)) then store_all loaded
  else store_all csvFallbackPros.

(** [Database.getTaxPro(id)] *)
Definition getTaxPro (roster : list (string * TaxProfessional)) (id : string)
    : option TaxProfessional :=
  map_get id roster.

(** [Database.getAllTaxPros()] *)
Definition getAllTaxPros (roster : list (string * TaxProfessional))
    : list TaxProfessional :=
  map_values roster.

(** [Database.getAvailableTaxPros()] on the stored roster. *)
Definition storedAvailableTaxPros (roster : list (string * TaxProfessional))
    : list TaxProfessional :=
  getAvailableTaxPros (map_values roster).

Definition set_currentLoad (n : Z) (tp : TaxProfessional) : TaxProfessional :=
  {| tp_id := tp_id tp; tp_name := tp_name tp; tp_email := tp_email tp;
     specializations := specializations tp; maxComplexity := maxComplexity tp;
     currentLoad := n;
     maxDailyAppointments := maxDailyAppointments tp;
     available := available tp; rating := rating tp |}.

(** [Number.MAX_SAFE_INTEGER] and [Number.isSafeInteger] on integers: the
    range in which a number holds every integer exactly. *)
Definition MAX_SAFE_INTEGER : Z := 2 ^ 53 - 1.

Definition isSafeInteger (n : Z) : bool :=
  Z.leb (- MAX_SAFE_INTEGER) n && Z.leb n MAX_SAFE_INTEGER.

(** The number nearest to an integer: a number is a binary64 value, whose
    significand has 53 bits, so an integer below 2^53 in magnitude is
    kept, and a larger one is rounded to the nearest multiple of the
    power of two that leaves 53 bits, a tie going to the even
    significand. (From 2^1024 on the number is [Infinity], which is no
    integer: loads of that size are not covered.) *)
Definition round_to_number (x : Z) : Z :=
  let a := Z.abs x in
  if Z.ltb a (2 ^ 53) then x
  else
    let unit := 2 ^ (Z.log2 a - 52) in
    let q := a / unit in
    let r := a mod unit in
    let q' :=
      if Z.ltb (2 * r) unit then q
      else if Z.ltb unit (2 * r) then q + 1
      else if Z.even q then q else q + 1 in
    Z.sgn x * (q' * unit).

(** [a + b] on two numbers that hold integers: the exact sum, rounded to
    a number. *)
Definition number_add (a b : Z) : Z := round_to_number (a + b).

(** The additions that leave the safe range nowhere: there the sum of
    the code is the sum of the integers. *)
Definition safe_addition (a b : Z) : Prop :=
  isSafeInteger a = true ∧ isSafeInteger b = true
  ∧ isSafeInteger (a + b) = true.

(** [Database.updateTaxProLoad(id, change)]; the load and the change are
    numbers that hold integers. *)
Definition updateTaxProLoad (roster : list (string * TaxProfessional))
    (id : string) (change : Z)
    : option TaxProfessional * list (string * TaxProfessional) :=
  match map_get id roster with
  | Some taxPro =>
      let taxPro' :=
        set_currentLoad (Z.max 0 (number_add (currentLoad taxPro) change))
          taxPro in
      (Some taxPro', map_set id taxPro' roster)
  | None => (None, roster)
  end.

(** The fields of [Reminder] that the database reads and writes, with the
    references and the message of the data model; a [Date] is its time
    value, [None] when the date is invalid. *)
Record Reminder := {
  rem_id : string;
  rem_clientId : string;
  rem_appointmentId : option string;
  rem_message : string;
  rem_scheduledFor : option Z;
  rem_sent : bool;
  rem_sentAt : option Z;
}.

(** [Database.createReminder(reminder)] *)
Definition createReminder (reminders : list (string * Reminder)) (r : Reminder)
    : Reminder * list (string * Reminder) :=
  (r, map_set (rem_id r) r reminders).

(** [Database.getReminder(id)] *)
Definition getReminder (reminders : list (string * Reminder)) (id : string)
    : option Reminder :=
  map_get id reminders.

(** [Database.getRemindersByClient(clientId)] *)
Definition getRemindersByClient (reminders : list (string * Reminder))
    (cid : string) : list Reminder :=
  List.filter (λ r, String.eqb (rem_clientId r) cid) (map_values reminders).

(** [!r.sent && r.scheduledFor <= now]; a comparison with an invalid date
    is false. *)
Definition is_pending (now : Z) (r : Reminder) : bool :=
  negb (rem_sent r)
  && match rem_scheduledFor r with
     | Some t => Z.leb t now
     | None => false
     end.

(** [Database.getPendingReminders()], called at time [now]. *)
Definition getPendingReminders (now : Z) (reminders : list (string * Reminder))
    : list Reminder :=
  List.filter (is_pending now) (map_values reminders).

(** [Database.markReminderSent(id)], called at time [now]. *)
Definition markReminderSent (now : Z) (reminders : list (string * Reminder))
    (id : string) : option Reminder * list (string * Reminder) :=
  match map_get id reminders with
  | Some reminder =>
      let reminder' :=
        {| rem_id := rem_id reminder; rem_clientId := rem_clientId reminder;
           rem_appointmentId := rem_appointmentId reminder;
           rem_message := rem_message reminder;
           rem_scheduledFor := rem_scheduledFor reminder;
           rem_sent := true; rem_sentAt := Some now |} in
      (Some reminder', map_set id reminder' reminders)
  | None => (None, reminders)
  end.

(** A store as the database builds it: one entry per key. *)
Definition unique_keys {V} (m : list (string * V)) : Prop := NoDup (map fst m).

(** Every professional is stored under its own id. *)
Definition keyed_by_id (roster : list (string * TaxProfessional)) : Prop :=
  ∀ k tp, (k, tp) ∈ roster → tp_id tp = k.

Definition example_reminder (id : string) (at_time : Z) : Reminder :=
  {| rem_id := id; rem_clientId := "c1"; rem_appointmentId := Some "apt-1";
     rem_message := "Your appointment is tomorrow";
     rem_scheduledFor := Some at_time; rem_sent := false; rem_sentAt := None |}.

Definition example_reminders : list (string * Reminder) :=
  (createReminder (createReminder [] (example_reminder "r1" 100)).2
     (example_reminder "r2" 200)).2.

(** ** The roster loader (services/taxproLoader.ts)

    The text of the CSV file is a JavaScript string: the list of its
    UTF-16 code units. *)

(** The code units of a literal made of ASCII characters. *)
Definition units (s : string) : list N :=
  map Ascii.N_of_ascii (String.list_ascii_of_string s).

(** White space and line terminators, which [String.prototype.trim]
    strips: TAB, LF, VT, FF, CR, SP, NBSP, U+1680, U+2000 to U+200A,
    U+2028, U+2029, U+202F, U+205F, U+3000 and U+FEFF. *)
Definition is_js_whitespace (c : N) : bool :=
  ((N.leb 9 c && N.leb c 13) || N.eqb c 32 || N.eqb c 160 || N.eqb c 5760
   || (N.leb 8192 c && N.leb c 8202) || N.eqb c 8232 || N.eqb c 8233
   || N.eqb c 8239 || N.eqb c 8287 || N.eqb c 12288 || N.eqb c 65279)%bool.

Fixpoint trim_start (s : list N) : list N :=
  match s with
  | [] => []
  | c :: r => if is_js_whitespace c then trim_start r else s
  end.

Definition trim_end (s : list N) : list N := reverse (trim_start (reverse s)).

(** [s.trim()] *)
Definition js_trim (s : list N) : list N := trim_end (trim_start s).

(** [s.split(sep)] for a separator of one code unit. *)
Fixpoint js_split (sep : N) (s : list N) : list (list N) :=
  match s with
  | [] => [[]]
  | c :: r =>
      if N.eqb c sep then [] :: js_split sep r
      else
        match js_split sep r with
        | piece :: pieces => (c :: piece) :: pieces
        | [] => [[c]]
        end
  end.

Definition quote_unit : N := 34.
Definition comma_unit : N := 44.
Definition line_feed_unit : N := 10.

(** The loop [for (const char of lines[i])] of [parseCSV] followed by the
    final [values.push(current.trim())], from the state [values],
    [current], [inQuotes]. Iterating by code point or by code unit is the
    same here: the quote and the comma are single units, and every other
    character is appended to [current] unit by unit. *)
Fixpoint parse_line_from (values : list (list N)) (current : list N)
    (inQuotes : bool) (line : list N) : list (list N) :=
  match line with
  | [] => values ++ [js_trim current]
  | c :: r =>
      if N.eqb c quote_unit then parse_line_from values current (negb inQuotes) r
      else if N.eqb c comma_unit && negb inQuotes
      then parse_line_from (values ++ [js_trim current]) [] inQuotes r
      else parse_line_from values (current ++ [c]) inQuotes r
  end.

Definition parse_line (line : list N) : list (list N) :=
  parse_line_from [] [] false line.

Definition proto_key : list N := units "__proto__".

(** [headers.forEach((header, index) => { row[header] = values[index] || ''; })]
    on a fresh object: a later header of the same name overwrites, and
    assigning a string to [__proto__] creates no property. *)
Definition build_row (headers values : list (list N))
    : gmap (list N) (list N) :=
  foldl
    (λ row entry,
       let header := entry.2 in
       if decide (header = proto_key) then row
       else <[header := default [] (values !! entry.1)]> row)
    ∅ (imap pair headers).

(** The headers of the file: [lines[0].split(',').map(h => h.trim())]. *)
Definition csv_headers (content : list N) : list (list N) :=
  match js_split line_feed_unit (js_trim content) with
  | headerLine :: _ => map js_trim (js_split comma_unit headerLine)
  | [] => []
  end.

(** [parseCSV(content)] *)
Definition parseCSV (content : list N) : list (gmap (list N) (list N)) :=
  let lines := js_split line_feed_unit (js_trim content) in
  if Nat.ltb (length lines) 2 then []
  else
    match lines with
    | headerLine :: rest =>
        let headers := map js_trim (js_split comma_unit headerLine) in
        map (λ line, build_row headers (parse_line line)) rest
    | [] => []
    end.

(** Neither white space at the start nor at the end. *)
Definition trimmed (s : list N) : Prop :=
  (∀ c, head s = Some c → is_js_whitespace c = false)
  ∧ (∀ c, last s = Some c → is_js_whitespace c = false).

Definition example_csv : list N :=
  units "tax_pro_id, first_name ,specializations,is_active"
  ++ [line_feed_unit]
  ++ units "TP1,Ana," ++ [quote_unit]
  ++ units "Individual Returns, Cryptocurrency" ++ [quote_unit]
  ++ units ",TRUE" ++ [13%N; line_feed_unit]
  ++ units "TP2 , Ben" ++ [line_feed_unit].

(** [s.includes(sub)]: [sub] occurs in [s] as a run of consecutive units. *)
Fixpoint starts_with (s pre : list N) : bool :=
  match pre, s with
  | [], _ => true
  | _ :: _, [] => false
  | p :: pre', c :: r => N.eqb c p && starts_with r pre'
  end.

Fixpoint js_includes (s sub : list N) : bool :=
  starts_with s sub
  || match s with
     | [] => false
     | _ :: r => js_includes r sub
     end.

(** [specMap] of [mapSpecializations], in the order of the literal, which
    is the order of [Object.entries]. *)
Definition specMap : list (list N * Specialization) :=
  [ (units "individual returns", individual);
    (units "self-employment", self_employment);
    (units "small business", small_business);
    (units "investments", investments);
    (units "real estate", real_estate);
    (units "cryptocurrency", crypto);
    (units "foreign income", foreign_income);
    (units "estate planning", estate_planning);
    (units "audit representation", audit_representation) ].

(** What [mapSpecializations] can push: a specialization, or -- when an
    entry names a property that [specMap] inherits from
    [Object.prototype], such as [constructor] -- the value of that
    property, which is no specialization. *)
Inductive MappedSpecialization :=
  | Mapped (s : Specialization)
  | Inherited (name : list N).

#[global] Instance MappedSpecialization_eq_dec : EqDecision MappedSpecialization.
Proof. solve_decision. Defined.

Section MapSpecializations.

(** [String.prototype.toLowerCase], and whether [Object.prototype] has a
    property of a given name (its value is then an object or a function,
    hence truthy). *)
Variable toLowerCase : list N → list N.
Variable inherited : list N → bool.

(** [specMap[spec]], [None] where the code finds a falsy value. *)
Definition specMap_get (spec : list N) : option MappedSpecialization :=
  match find (λ entry, bool_decide (entry.1 = spec)) specMap with
  | Some entry => Some (Mapped entry.2)
  | None => if inherited spec then Some (Inherited spec) else None
  end.

(** The first entry of [specMap] whose key contains [spec] or is
    contained in it: where the inner loop breaks. *)
Definition partial_match (spec : list N) : option Specialization :=
  snd <$> find (λ entry, js_includes spec entry.1 || js_includes entry.1 spec)
            specMap.

(** The body of [for (const spec of specs)]. *)
Definition map_one (mapped : list MappedSpecialization) (spec : list N)
    : list MappedSpecialization :=
  match specMap_get spec with
  | Some mapped_spec => mapped ++ [mapped_spec]
  | None =>
      match partial_match spec with
      | Some value =>
          if includes mapped (Mapped value) then mapped
          else mapped ++ [Mapped value]
      | None => mapped
      end
  end.

(** The entries of the CSV field, trimmed and in lower case. *)
Definition spec_entries (csvSpecs : list N) : list (list N) :=
  map (λ s, toLowerCase (js_trim s)) (js_split comma_unit csvSpecs).

(** [mapSpecializations(csvSpecs)] *)
Definition mapSpecializations (csvSpecs : list N) : list MappedSpecialization :=
  let mapped := foldl map_one [] (spec_entries csvSpecs) in
  if Nat.eqb (length mapped) 0 then [Mapped individual] else mapped.

End MapSpecializations.

(** Lower case for the letters A-Z, and the names of the properties of
    [Object.prototype], to run [mapSpecializations] on. *)
Definition ascii_toLowerCase (s : list N) : list N :=
  map (λ c, if (N.leb 65 c && N.leb c 90)%bool then (c + 32)%N else c) s.

Definition object_prototype_names : list (list N) :=
  map units
    [ "constructor"; "__defineGetter__"; "__defineSetter__"; "hasOwnProperty";
      "__lookupGetter__"; "__lookupSetter__"; "isPrototypeOf";
      "propertyIsEnumerable"; "toString"; "valueOf"; "__proto__";
      "toLocaleString" ].

Definition example_mapSpecializations : list N → list MappedSpecialization :=
  mapSpecializations ascii_toLowerCase
    (λ name, bool_decide (name ∈ object_prototype_names)).

(** * Properties *)

(** ** Stage positions *)

Lemma stage_index_nat s : stage_index s = Z.of_nat (stage_to_nat s).
Proof. by destruct s. Qed.

Lemma stage_index_range s : 0 ≤ stage_index s ≤ 9.
Proof. rewrite stage_index_nat. destruct s; simpl; lia. Qed.

Lemma stage_index_inj s t : stage_index s = stage_index t → s = t.
Proof. rewrite !stage_index_nat. destruct s, t; simpl; by try lia. Qed.

Lemma stage_index_complete s : stage_index s = 9 → s = complete.
Proof. intros H. by apply stage_index_inj. Qed.

(** ** [push_if_missing] *)

Lemma elem_of_push_if_missing {A} `{EqDecision A} (l : list A) x y :
  y ∈ push_if_missing l x ↔ y ∈ l ∨ y = x.
Proof.
  unfold push_if_missing, includes. case_bool_decide as Hx.
  - split; [by left | intros [?| ->]; done].
  - rewrite elem_of_app, list_elem_of_singleton. done.
Qed.

Lemma NoDup_push_if_missing {A} `{EqDecision A} (l : list A) x :
  NoDup l → NoDup (push_if_missing l x).
Proof.
  intros Hl. unfold push_if_missing, includes. case_bool_decide as Hx; [done|].
  apply NoDup_app. split_and!; [done | | apply NoDup_singleton].
  intros y Hy ->%list_elem_of_singleton. done.
Qed.

Lemma push_if_missing_present {A} `{EqDecision A} (l : list A) x :
  x ∈ l → push_if_missing l x = l.
Proof. intros Hx. unfold push_if_missing, includes. by rewrite bool_decide_eq_true_2. Qed.

Lemma push_if_missing_idemp {A} `{EqDecision A} (l : list A) x :
  push_if_missing (push_if_missing l x) x = push_if_missing l x.
Proof. apply push_if_missing_present, elem_of_push_if_missing. by right. Qed.

(** ** One call of [advanceFlow] on a state *)

Lemma store_stage_data_currentStage sd st :
  currentStage (store_stage_data sd st) = currentStage st.
Proof. by destruct sd. Qed.

Lemma store_stage_data_completedStages sd st :
  completedStages (store_stage_data sd st) = completedStages st.
Proof. by destruct sd. Qed.

Lemma mark_and_move_completedStages now st :
  completedStages (mark_and_move now st)
  = push_if_missing (completedStages st) (currentStage st).
Proof.
  unfold mark_and_move. simpl.
  destruct (Z.ltb _ _); [|done]. by destruct (FLOW_SEQUENCE !! _).
Qed.

Lemma mark_and_move_currentStage now st :
  stage_index (currentStage (mark_and_move now st))
  = Z.min 9 (stage_index (currentStage st) + 1).
Proof. destruct st as [? ? cur ? ? ? ? ? ? ?]. by destruct cur. Qed.

Lemma mark_and_move_at_complete now st :
  currentStage st = complete →
  mark_and_move now st
  = set_lastActivityAt now
      (set_completedStages (push_if_missing (completedStages st) complete) st).
Proof. destruct st; simpl. by intros ->. Qed.

Lemma advance_state_cases now client sd st :
  advance_state now client sd st = store_stage_data sd st
  ∨ advance_state now client sd st = mark_and_move now (store_stage_data sd st).
Proof. unfold advance_state. destruct (canProceed _); auto. Qed.

Lemma advance_state_currentStage now client sd st :
  stage_index (currentStage st)
    ≤ stage_index (currentStage (advance_state now client sd st))
    ≤ stage_index (currentStage st) + 1.
Proof.
  pose proof (stage_index_range (currentStage st)).
  destruct (advance_state_cases now client sd st) as [-> | ->].
  - rewrite store_stage_data_currentStage. lia.
  - rewrite mark_and_move_currentStage, store_stage_data_currentStage. lia.
Qed.

Lemma advanceFlow_registry now flows clients cid sd st :
  flows !! cid = Some st →
  (advanceFlow now flows clients cid sd).2
  = <[cid := advance_state now (clients !! cid) sd st]> flows.
Proof. intros H. unfold advanceFlow. by rewrite H. Qed.

(** C2: a single call of [advanceFlow] never moves [currentStage] to an
    earlier stage of the sequence and moves it forward by at most one
    position, whatever the state, the stage data and the client store --
    hence also when the completion checks of several consecutive stages
    hold at the time of the call. *)
Theorem advanceFlow_moves_at_most_one_stage
    now flows clients cid sd st :
  flows !! cid = Some st →
  ∃ st',
    (advanceFlow now flows clients cid sd).2 !! cid = Some st'
    ∧ stage_index (currentStage st) ≤ stage_index (currentStage st')
    ∧ stage_index (currentStage st') ≤ stage_index (currentStage st) + 1.
Proof.
  intros H. exists (advance_state now (clients !! cid) sd st).
  rewrite (advanceFlow_registry _ _ _ _ _ st H), lookup_insert_eq.
  pose proof (advance_state_currentStage now (clients !! cid) sd st). tauto.
Qed.

Lemma advanceFlow_moves_at_most_one_stage_witness :
  let flows := (initializeFlow 0 ∅ "c1" "s1").2 in
  let st := (initializeFlow 0 ∅ "c1" "s1").1 in
  flows !! "c1" = Some st
  ∧ ∃ st',
      (advanceFlow 1 flows db_intake_running "c1"
         (Some {[ "started" := JBool true ]})).2 !! "c1" = Some st'
      ∧ stage_index (currentStage st) ≤ stage_index (currentStage st')
      ∧ stage_index (currentStage st') ≤ stage_index (currentStage st) + 1.
Proof.
  split.
  - vm_compute. reflexivity.
  - apply (advanceFlow_moves_at_most_one_stage 1 _ db_intake_running "c1"
             (Some {[ "started" := JBool true ]})
             (initializeFlow 0 ∅ "c1" "s1").1).
    vm_compute. reflexivity.
Defined.

(** Two consecutive completion checks hold at once -- the summary was
    shown and is already confirmed -- and the call still stops at the
    next stage. *)
Example advanceFlow_two_checks_satisfied :
  let st :=
    set_summaryConfirmed true
      (set_currentStage summary_review (initializeFlow 0 ∅ "c1" "s1").1) in
  let flows : gmap string ConversationFlowState := {[ "c1" := st ]} in
  let sd : gmap string JsVal := {[ "shown" := JBool true ]} in
  canProceed (completionCheck summary_confirmation (store_stage_data (Some sd) st) None)
    = true
  ∧ currentStage
      <$> (advanceFlow 1 flows db_intake_done "c1" (Some sd)).2 !! "c1"
    = Some summary_confirmation.
Proof. split; vm_compute; reflexivity. Qed.

(** ** Calls for a client without a flow *)

(** C8: for a client id without a flow state, [advanceFlow],
    [getFlowStatus], [confirmSummary], [setSchedulingPreferences] and
    [setSelectedTaxPro] each return null and leave the registry of flow
    states as it was. *)
Theorem no_flow_returns_null
    now flows clients cid sd preferences taxProId :
  flows !! cid = None →
  advanceFlow now flows clients cid sd = (None, flows)
  ∧ getFlowStatus flows clients cid = None
  ∧ confirmSummary now flows clients cid = (None, flows)
  ∧ setSchedulingPreferences now flows clients cid preferences = (None, flows)
  ∧ setSelectedTaxPro now flows clients cid taxProId = (None, flows).
Proof.
  intros H.
  unfold advanceFlow, getFlowStatus, confirmSummary, setSchedulingPreferences,
    setSelectedTaxPro.
  by rewrite H.
Qed.

Lemma no_flow_returns_null_witness :
  let flows := (initializeFlow 0 ∅ "c1" "s1").2 in
  flows !! "c2" = None
  ∧ advanceFlow 1 flows db_intake_running "c2" (Some {[ "started" := JBool true ]})
    = (None, flows)
  ∧ getFlowStatus flows db_intake_running "c2" = None
  ∧ confirmSummary 1 flows db_intake_running "c2" = (None, flows)
  ∧ setSchedulingPreferences 1 flows db_intake_running "c2" example_preferences
    = (None, flows)
  ∧ setSelectedTaxPro 1 flows db_intake_running "c2" "tp-001" = (None, flows).
Proof.
  split.
  - vm_compute. reflexivity.
  - apply (no_flow_returns_null 1 (initializeFlow 0 ∅ "c1" "s1").2
             db_intake_running "c2").
    vm_compute. reflexivity.
Defined.

Lemma reachable_run_ops script flows :
  reachable flows → reachable (run_ops script flows).
Proof.
  revert flows. induction script as [|[[now clients] op] rest IH]; intros flows H.
  - done.
  - simpl. apply IH. by constructor.
Qed.

(** ** [advanceFlow] at the last stage *)


Lemma advance_state_at_complete now client st :
  currentStage st = complete →
  advance_state now client None st
  = set_lastActivityAt now
      (set_completedStages (push_if_missing (completedStages st) complete) st).
Proof.
  intros Hcur. unfold advance_state. simpl. rewrite Hcur. simpl.
  by apply mark_and_move_at_complete.
Qed.



(** From the second call on nothing but the timestamp changes. *)
Lemma advance_state_at_complete_twice now1 now2 client st :
  currentStage st = complete →
  advance_state now2 client None (advance_state now1 client None st)
  = set_lastActivityAt now2 (advance_state now1 client None st).
Proof.
  intros Hcur. rewrite (advance_state_at_complete now1 _ _ Hcur).
  rewrite advance_state_at_complete by done. simpl.
  by rewrite push_if_missing_idemp.
Qed.

(** ** The first two stages *)

Lemma nonempty_session sid :
  sid ≠ "" →
  truthy_str sid && Z.ltb 0 (Z.of_nat (String.length sid)) = true.
Proof.
  destruct sid as [|a sid]; [done|]. intros _.
  unfold truthy_str. cbn [String.eqb negb andb String.length].
  apply Z.ltb_lt. lia.
Qed.

(** C9: on a freshly initialized flow with a non-empty session id,
    [advanceFlow] with stage data [{started: true}] moves the flow to
    [intake_questions]; as long as the client's intake is not completed, a
    further [advanceFlow] without stage data leaves it there. *)
Theorem fresh_flow_stops_at_intake_questions
    now0 now1 now2 flows clients1 clients2 cid sid :
  sid ≠ "" →
  intake_not_completed clients2 cid →
  let flows0 := (initializeFlow now0 flows cid sid).2 in
  let first := advanceFlow now1 flows0 clients1 cid
                 (Some {[ "started" := JBool true ]}) in
  let second := advanceFlow now2 first.2 clients2 cid None in
  currentStage <$> flows0 !! cid = Some welcome
  ∧ currentStage <$> first.2 !! cid = Some intake_questions
  ∧ res_currentStage <$> first.1 = Some intake_questions
  ∧ currentStage <$> second.2 !! cid = Some intake_questions
  ∧ res_currentStage <$> second.1 = Some intake_questions
  ∧ second.2 = first.2.
Proof.
  intros Hsid Hintake flows0 first second.
  assert (H0 : flows0 !! cid = Some (initializeFlow now0 flows cid sid).1)
    by apply lookup_insert_eq.
  set (st1 := advance_state now1 (clients1 !! cid)
                (Some {[ "started" := JBool true ]})
                (initializeFlow now0 flows cid sid).1).
  assert (Hst1 : currentStage st1 = intake_questions).
  { unfold st1, advance_state. simpl. rewrite (nonempty_session _ Hsid). done. }
  assert (H1 : first.2 = <[cid := st1]> flows0)
    by apply (advanceFlow_registry _ _ _ _ _ _ H0).
  assert (H1' : first.2 !! cid = Some st1) by (rewrite H1; apply lookup_insert_eq).
  assert (Hadv2 : advance_state now2 (clients2 !! cid) None st1 = st1).
  { unfold advance_state. simpl. rewrite Hst1. simpl.
    unfold intake_not_completed in Hintake.
    destruct (clients2 !! cid) as [c|]; [by rewrite Hintake | done]. }
  assert (H2 : second.2 = first.2).
  { unfold second. rewrite (advanceFlow_registry _ _ _ _ _ _ H1'), Hadv2.
    by apply insert_id. }
  split_and!.
  - by rewrite H0.
  - by rewrite H1', <- Hst1.
  - unfold first, advanceFlow. rewrite H0. simpl. unfold getFlowStatus.
    rewrite lookup_insert_eq. simpl. by f_equal.
  - by rewrite H2, H1', <- Hst1.
  - unfold second, advanceFlow. rewrite H1'. simpl. unfold getFlowStatus.
    rewrite lookup_insert_eq. simpl. rewrite Hadv2. by f_equal.
  - done.
Qed.

Lemma fresh_flow_stops_at_intake_questions_witness :
  "s1" ≠ ""
  ∧ intake_not_completed db_intake_running "c1"
  ∧ let flows0 := (initializeFlow 0 ∅ "c1" "s1").2 in
    let first := advanceFlow 1 flows0 db_intake_running "c1"
                   (Some {[ "started" := JBool true ]}) in
    let second := advanceFlow 2 first.2 db_intake_running "c1" None in
    currentStage <$> flows0 !! "c1" = Some welcome
    ∧ currentStage <$> first.2 !! "c1" = Some intake_questions
    ∧ res_currentStage <$> first.1 = Some intake_questions
    ∧ currentStage <$> second.2 !! "c1" = Some intake_questions
    ∧ res_currentStage <$> second.1 = Some intake_questions
    ∧ second.2 = first.2.
Proof.
  split; [discriminate|]. split; [vm_compute; reflexivity|].
  apply (fresh_flow_stops_at_intake_questions 0 1 2 ∅
           db_intake_running db_intake_running "c1" "s1").
  - discriminate.
  - vm_compute. reflexivity.
Defined.

(** ** [getOrCreateFlowState] on an existing flow *)

(** C10: for a client id that already has a flow state,
    [getOrCreateFlowState] returns that state with only [lastActivityAt]
    modified; the [sessionId] argument is discarded, and the stored
    session id, [currentStage], [completedStages] and [stageData] are
    unchanged. The registry holds the returned state, and the flows of the
    other clients are untouched. *)
Theorem getOrCreateFlowState_existing now flows cid sid st :
  flows !! cid = Some st →
  let result := getOrCreateFlowState now flows cid sid in
  result.1 = set_lastActivityAt now st
  ∧ sessionId result.1 = sessionId st
  ∧ currentStage result.1 = currentStage st
  ∧ completedStages result.1 = completedStages st
  ∧ stageData result.1 = stageData st
  ∧ clientId result.1 = clientId st
  ∧ startedAt result.1 = startedAt st
  ∧ summaryConfirmed result.1 = summaryConfirmed st
  ∧ selectedTaxProId result.1 = selectedTaxProId st
  ∧ preferredSchedule result.1 = preferredSchedule st
  ∧ lastActivityAt result.1 = now
  ∧ result.2 !! cid = Some result.1
  ∧ (∀ other, other ≠ cid → result.2 !! other = flows !! other).
Proof.
  intros H. unfold getOrCreateFlowState. rewrite H. simpl.
  split_and!; try done.
  - apply lookup_insert_eq.
  - intros other Hne. by apply lookup_insert_ne.
Qed.

Lemma getOrCreateFlowState_existing_witness :
  let flows := (initializeFlow 0 ∅ "c1" "s1").2 in
  let st := (initializeFlow 0 ∅ "c1" "s1").1 in
  let result := getOrCreateFlowState 5 flows "c1" "another-session" in
  flows !! "c1" = Some st
  ∧ result.1 = set_lastActivityAt 5 st
  ∧ sessionId result.1 = "s1".
Proof.
  split; [vm_compute; reflexivity|].
  pose proof (getOrCreateFlowState_existing 5 (initializeFlow 0 ∅ "c1" "s1").2
                "c1" "another-session" (initializeFlow 0 ∅ "c1" "s1").1) as H.
  destruct H as (H1 & H2 & _); [vm_compute; reflexivity|].
  split; [exact H1 | exact H2].
Defined.

(** ** The completed stages of reachable flows *)

Lemma inv_on_initial : inv_on welcome [].
Proof.
  split_and!.
  - constructor.
  - intros s Hs. pose proof (stage_index_range s). change (stage_index welcome) with 0 in Hs. lia.
  - intros s Hs. by apply elem_of_nil in Hs.
Qed.

(** The step of [advanceFlow]: record the current stage, move to the next. *)
Lemma inv_on_advance cur cur' completed :
  inv_on cur completed →
  stage_index cur' = Z.min 9 (stage_index cur + 1) →
  inv_on cur' (push_if_missing completed cur).
Proof.
  intros (Hnd & Hpre & Hoth) Hcur'.
  pose proof (stage_index_range cur) as Hr.
  split_and!.
  - by apply NoDup_push_if_missing.
  - intros s Hs. apply elem_of_push_if_missing.
    destruct (decide (stage_index s < stage_index cur)) as [Hlt|Hge].
    + left. by apply Hpre.
    + right. apply stage_index_inj. lia.
  - intros s [Hin | ->]%elem_of_push_if_missing.
    + destruct (Hoth s Hin) as [Hlt | [-> | [-> ->]]].
      * left. lia.
      * by right; left.
      * right; right. split; [done|]. apply stage_index_complete.
        rewrite Hcur'. change (stage_index complete) with 9. lia.
    + destruct (decide (stage_index cur < 9)) as [Hlt|Hge].
      * left. lia.
      * assert (cur = complete) as -> by (apply stage_index_complete; lia).
        right; right. split; [done|]. apply stage_index_complete.
        rewrite Hcur'. change (stage_index complete) with 9. lia.
Qed.

(** The first block of [syncFlowWithState]: record the two intake stages,
    leave them if the flow is still there. *)
Lemma inv_on_backfill cur cur' completed :
  inv_on cur completed →
  stage_index cur' = Z.max 2 (stage_index cur) →
  inv_on cur'
    (push_if_missing (push_if_missing completed welcome) intake_questions).
Proof.
  intros (Hnd & Hpre & Hoth) Hcur'.
  pose proof (stage_index_range cur) as Hr.
  split_and!.
  - by do 2 apply NoDup_push_if_missing.
  - intros s Hs. rewrite !elem_of_push_if_missing.
    pose proof (stage_index_range s) as Hrs.
    destruct (decide (stage_index s < stage_index cur)) as [Hlt|Hge].
    + left; left. by apply Hpre.
    + destruct (decide (stage_index s = 0)) as [H0|H0].
      * left; right. by apply stage_index_inj.
      * right. apply stage_index_inj.
        change (stage_index intake_questions) with 1. lia.
  - intros s Hs. rewrite !elem_of_push_if_missing in Hs.
    destruct Hs as [[Hin | ->] | ->].
    + destruct (Hoth s Hin) as [Hlt | [-> | [-> ->]]].
      * left. lia.
      * by right; left.
      * right; right. split; [done|]. apply stage_index_complete.
        rewrite Hcur'. change (stage_index complete) with 9. lia.
    + left. change (stage_index welcome) with 0. lia.
    + left. change (stage_index intake_questions) with 1. lia.
Qed.

(** The last block of [syncFlowWithState]. *)
Lemma inv_on_appointment cur completed :
  inv_on cur completed →
  inv_on cur (push_if_missing completed appointment_scheduling).
Proof.
  intros (Hnd & Hpre & Hoth).
  split_and!.
  - by apply NoDup_push_if_missing.
  - intros s Hs. apply elem_of_push_if_missing. left. by apply Hpre.
  - intros s [Hin | ->]%elem_of_push_if_missing; [by apply Hoth | by right; left].
Qed.

Lemma flow_inv_initializeFlow now flows cid sid :
  flow_inv (initializeFlow now flows cid sid).1.
Proof. apply inv_on_initial. Qed.

Lemma flow_inv_store_stage_data sd st :
  flow_inv st → flow_inv (store_stage_data sd st).
Proof. by destruct sd. Qed.

Lemma flow_inv_mark_and_move now st :
  flow_inv st → flow_inv (mark_and_move now st).
Proof.
  intros H. unfold flow_inv. rewrite mark_and_move_completedStages.
  eapply inv_on_advance; [done|]. apply mark_and_move_currentStage.
Qed.

Lemma flow_inv_advance_state now client sd st :
  flow_inv st → flow_inv (advance_state now client sd st).
Proof.
  intros H. destruct (advance_state_cases now client sd st) as [-> | ->].
  - by apply flow_inv_store_stage_data.
  - by apply flow_inv_mark_and_move, flow_inv_store_stage_data.
Qed.

Lemma sync_intake_currentStage client st :
  currentStage (sync_intake client st) = currentStage st
  ∨ (stage_index (currentStage st) < 2
     ∧ currentStage (sync_intake client st) = summary_review).
Proof.
  unfold sync_intake. destruct (_ && negb _); [|by left]. simpl.
  destruct st as [? ? cur ? ? ? ? ? ? ?]. simpl.
  destruct cur; simpl; first [by left | by right].
Qed.

Lemma flow_inv_sync_intake client st :
  flow_inv st → flow_inv (sync_intake client st).
Proof.
  intros H. unfold sync_intake. destruct (_ && negb _); [|done].
  unfold flow_inv. simpl.
  destruct (bool_decide _ || bool_decide _) eqn:Hat; simpl.
  - eapply inv_on_backfill; [exact H|].
    apply orb_true_iff in Hat as [->%bool_decide_eq_true | ->%bool_decide_eq_true];
      reflexivity.
  - eapply inv_on_backfill; [exact H|].
    apply orb_false_iff in Hat as [Hw%bool_decide_eq_false Hi%bool_decide_eq_false].
    pose proof (stage_index_range (currentStage st)) as Hr.
    destruct (decide (stage_index (currentStage st) = 0)) as [Hz|Hz];
      [by apply (stage_index_inj _ welcome) in Hz|].
    destruct (decide (stage_index (currentStage st) = 1)) as [Ho|Ho];
      [by apply (stage_index_inj _ intake_questions) in Ho|].
    lia.
Qed.

Lemma flow_inv_sync_with_client client st :
  flow_inv st → flow_inv (sync_with_client client st).
Proof.
  intros H%(flow_inv_sync_intake client).
  unfold sync_with_client, sync_appointment, sync_taxpro, sync_checklist.
  set (st1 := sync_intake client st) in *.
  assert (H2 : flow_inv
            (if truthy_opt_str (assignedTaxPro client)
             then set_selectedTaxProId (assignedTaxPro client)
                    (if Z.ltb 0 (Z.of_nat (length (documentsCollected client)))
                        || Z.ltb 0 (Z.of_nat (length (documentsPending client)))
                     then set_stageData
                            (<[document_checklist := {[ "generated" := JBool true ]}]>
                               (stageData st1)) st1
                     else st1)
             else
               if Z.ltb 0 (Z.of_nat (length (documentsCollected client)))
                  || Z.ltb 0 (Z.of_nat (length (documentsPending client)))
               then set_stageData
                      (<[document_checklist := {[ "generated" := JBool true ]}]>
                         (stageData st1)) st1
               else st1)).
  { destruct (truthy_opt_str _), (_ || _); exact H. }
  destruct (truthy_opt_str (appointmentId client)); [|exact H2].
  by apply inv_on_appointment.
Qed.

Lemma registry_inv_empty : registry_inv ∅.
Proof. intros cid st H. by rewrite lookup_empty in H. Qed.

Lemma registry_inv_insert flows cid st :
  registry_inv flows → flow_inv st → registry_inv (<[cid := st]> flows).
Proof.
  intros Hreg Hst cid' st' H.
  destruct (decide (cid = cid')) as [->|Hne].
  - rewrite lookup_insert_eq in H. by injection H as <-.
  - rewrite lookup_insert_ne in H by done. by eapply Hreg.
Qed.

Lemma registry_inv_advanceFlow now flows clients cid sd :
  registry_inv flows → registry_inv (advanceFlow now flows clients cid sd).2.
Proof.
  intros Hreg. unfold advanceFlow.
  destruct (flows !! cid) as [st|] eqn:Hst; [|done]. simpl.
  apply registry_inv_insert; [done|].
  apply flow_inv_advance_state. by eapply Hreg.
Qed.

Lemma registry_inv_run_op now clients op flows :
  registry_inv flows → registry_inv (run_op now clients op flows).
Proof.
  intros Hreg. destruct op as [cid sid|cid sd|cid|cid p|cid t|cid sid]; simpl.
  - apply registry_inv_insert; [done | apply inv_on_initial].
  - by apply registry_inv_advanceFlow.
  - unfold confirmSummary. destruct (flows !! cid) as [st|] eqn:Hst; [|done].
    apply registry_inv_advanceFlow, registry_inv_insert; [done|].
    exact (Hreg _ _ Hst).
  - unfold setSchedulingPreferences. destruct (flows !! cid) as [st|] eqn:Hst; [|done].
    apply registry_inv_advanceFlow, registry_inv_insert; [done|].
    exact (Hreg _ _ Hst).
  - unfold setSelectedTaxPro. destruct (flows !! cid) as [st|] eqn:Hst; [|done].
    apply registry_inv_advanceFlow, registry_inv_insert; [done|].
    exact (Hreg _ _ Hst).
  - unfold syncFlowWithState.
    destruct (flows !! cid) as [st|] eqn:Hst; simpl.
    + apply registry_inv_insert; [done|].
      destruct (clients !! cid) as [c|]; [|exact (Hreg _ _ Hst)].
      apply (flow_inv_sync_with_client c st), (Hreg _ _ Hst).
    + apply registry_inv_insert; [apply registry_inv_insert; [done|apply inv_on_initial]|].
      destruct (clients !! cid) as [c|]; [|apply inv_on_initial].
      apply (flow_inv_sync_with_client c), inv_on_initial.
Qed.

Lemma registry_inv_reachable flows : reachable flows → registry_inv flows.
Proof.
  induction 1 as [|now clients op flows _ IH].
  - apply registry_inv_empty.
  - by apply registry_inv_run_op.
Qed.

(** C1 fails as stated: [syncFlowWithState] records
    [appointment_scheduling] as soon as the client has an appointment,
    wherever the flow stands: here at [welcome], seven stages earlier. *)
Lemma completed_not_always_exactly_preceding :
  ¬ completed_always_exactly_preceding.
Proof.
  intros Hclaim.
  set (flows := run_ops early_appointment_sync ∅).
  assert (Hreach : reachable flows) by apply reachable_run_ops, reachable_empty.
  destruct (flows !! "c1") as [st|] eqn:Hst; [|by vm_compute in Hst].
  assert (Hfields : (currentStage st, completedStages st)
                    = (welcome, [appointment_scheduling])).
  { apply (inj Some).
    change ((λ st, (currentStage st, completedStages st)) <$> Some st
            = Some (welcome, [appointment_scheduling])).
    rewrite <- Hst. vm_compute. reflexivity. }
  injection Hfields as Hcur Hcompleted.
  pose proof (Hclaim flows "c1" st Hreach Hst appointment_scheduling) as [Hlt _].
  rewrite Hcur, Hcompleted in Hlt.
  specialize (Hlt (list_elem_of_here _ _)). vm_compute in Hlt. discriminate.
Qed.

(** The other way out of the exact invariant: [advanceFlow] called again
    at [complete] records [complete] itself. *)
Example complete_recorded_at_complete :
  (λ st, (currentStage st, completedStages st))
    <$> run_ops (full_conversation
                 ++ [(10, db_appointment_booked, OpAdvanceFlow "c1" None)]) ∅
        !! "c1"
  = Some (complete, FLOW_SEQUENCE).
Proof. vm_compute. reflexivity. Qed.

(** C1, amended: in every registry reachable through the flow operations,
    the completed stages of a flow have no duplicates and include every
    stage that precedes the current stage (no gaps); the only other stages
    they can hold are [appointment_scheduling], which [syncFlowWithState]
    records once the client has an appointment, and [complete], once the
    flow is at [complete]. *)
Theorem completed_stages_of_reachable_flows flows cid st :
  reachable flows →
  flows !! cid = Some st →
  NoDup (completedStages st)
  ∧ (∀ s, stage_index s < stage_index (currentStage st) → s ∈ completedStages st)
  ∧ (∀ s, s ∈ completedStages st →
       stage_index s < stage_index (currentStage st)
       ∨ s = appointment_scheduling
       ∨ (s = complete ∧ currentStage st = complete)).
Proof. intros Hreach Hst. exact (registry_inv_reachable flows Hreach cid st Hst). Qed.

Lemma completed_stages_of_reachable_flows_witness :
  let flows := run_ops full_conversation ∅ in
  ∃ st,
    flows !! "c1" = Some st
    ∧ NoDup (completedStages st)
    ∧ (∀ s, stage_index s < stage_index (currentStage st) → s ∈ completedStages st)
    ∧ (∀ s, s ∈ completedStages st →
         stage_index s < stage_index (currentStage st)
         ∨ s = appointment_scheduling
         ∨ (s = complete ∧ currentStage st = complete)).
Proof.
  eexists. split; [vm_compute; reflexivity|].
  apply (completed_stages_of_reachable_flows (run_ops full_conversation ∅) "c1").
  - apply reachable_run_ops, reachable_empty.
  - vm_compute. reflexivity.
Defined.

(** Where neither exception applies the invariant of the specification
    holds as stated. *)
Lemma completed_exactly_preceding_of_inv st :
  flow_inv st →
  currentStage st ≠ complete →
  (appointment_scheduling ∈ completedStages st →
   stage_index appointment_scheduling < stage_index (currentStage st)) →
  completed_exactly_preceding st.
Proof.
  intros (_ & Hpre & Hoth) Hnc Happt s. split; [|apply Hpre].
  intros Hin. destruct (Hoth s Hin) as [Hlt | [-> | [_ Hc]]]; [done | by apply Happt | done].
Qed.

(** ** Resynchronization *)

Lemma backfill_idemp (l : list ConversationStage) :
  push_if_missing
    (push_if_missing
       (push_if_missing (push_if_missing l welcome) intake_questions)
       welcome)
    intake_questions
  = push_if_missing (push_if_missing l welcome) intake_questions.
Proof.
  rewrite (push_if_missing_present (push_if_missing (push_if_missing l _) _) welcome).
  - apply push_if_missing_idemp.
  - rewrite !elem_of_push_if_missing. auto.
Qed.

Lemma backfill_after_appointment (l : list ConversationStage) :
  push_if_missing
    (push_if_missing
       (push_if_missing
          (push_if_missing (push_if_missing l welcome) intake_questions)
          appointment_scheduling)
       welcome)
    intake_questions
  = push_if_missing
      (push_if_missing (push_if_missing l welcome) intake_questions)
      appointment_scheduling.
Proof.
  rewrite (push_if_missing_present (push_if_missing (push_if_missing _ _) _) welcome).
  - apply push_if_missing_present. rewrite !elem_of_push_if_missing. auto.
  - rewrite !elem_of_push_if_missing. auto.
Qed.

Lemma sync_with_client_lastActivityAt client now st :
  sync_with_client client (set_lastActivityAt now st)
  = set_lastActivityAt now (sync_with_client client st).
Proof.
  unfold sync_with_client, sync_appointment, sync_taxpro, sync_checklist,
    sync_intake.
  destruct st as [? ? cur ? ? ? ? confirmed ? ?]. simpl.
  destruct (intakeCompleted client), confirmed,
    (Z.ltb 0 _ || Z.ltb 0 _), (truthy_opt_str (assignedTaxPro client)),
    (truthy_opt_str (appointmentId client)); simpl; try reflexivity;
    destruct cur; reflexivity.
Qed.

Lemma sync_with_client_idemp client st :
  sync_with_client client (sync_with_client client st)
  = sync_with_client client st.
Proof.
  unfold sync_with_client, sync_appointment, sync_taxpro, sync_checklist,
    sync_intake.
  destruct st as [? ? cur completed data ? ? confirmed ? ?]. simpl.
  destruct (intakeCompleted client), confirmed,
    (Z.ltb 0 _ || Z.ltb 0 _), (truthy_opt_str (assignedTaxPro client)),
    (truthy_opt_str (appointmentId client)); simpl;
    try (destruct cur; simpl);
    rewrite ?insert_insert_eq, ?backfill_after_appointment, ?backfill_idemp,
      ?push_if_missing_idemp;
    reflexivity.
Qed.

Lemma sync_with_client_currentStage client st :
  stage_index (currentStage st)
  ≤ stage_index (currentStage (sync_with_client client st)).
Proof.
  unfold sync_with_client, sync_appointment, sync_taxpro, sync_checklist.
  assert (H : stage_index (currentStage st)
              ≤ stage_index (currentStage (sync_intake client st))).
  { destruct (sync_intake_currentStage client st) as [-> | [Hlt ->]]; [lia|].
    change (stage_index summary_review) with 2. lia. }
  destruct (truthy_opt_str (appointmentId client)),
    (truthy_opt_str (assignedTaxPro client)), (_ || _); exact H.
Qed.

Lemma set_lastActivityAt_twice now1 now2 st :
  set_lastActivityAt now2 (set_lastActivityAt now1 st) = set_lastActivityAt now2 st.
Proof. reflexivity. Qed.

Lemma syncFlowWithState_result now flows clients cid sid :
  let st1 :=
    match clients !! cid with
    | Some c => sync_with_client c (sync_start now flows cid sid)
    | None => sync_start now flows cid sid
    end in
  syncFlowWithState now flows clients cid sid
  = (set_lastActivityAt now st1, <[cid := set_lastActivityAt now st1]> flows).
Proof.
  unfold syncFlowWithState, sync_start.
  destruct (flows !! cid) as [st|] eqn:Hst; simpl; [done|].
  by rewrite insert_insert_eq.
Qed.

(** C4 fails as stated: every call stamps [lastActivityAt] with the time
    of the call, so the two states differ as soon as the clock has moved
    in between. *)
Lemma syncFlowWithState_not_identical :
  ¬ syncFlowWithState_returns_identical_state.
Proof.
  intros Hclaim.
  specialize (Hclaim 0 1 ∅ db_intake_running "c1" "s1").
  apply (f_equal lastActivityAt) in Hclaim. vm_compute in Hclaim. discriminate.
Qed.

(** C4, amended: with an unchanged client store, a second call of
    [syncFlowWithState] with the same arguments returns the state of the
    first call in which only [lastActivityAt] is set anew, to the time of
    the second call (so the two states are identical when the clock reads
    the same), and the registry holds that state; and no call moves
    [currentStage] of a stored flow to an earlier stage. *)
Theorem syncFlowWithState_idempotent_up_to_timestamp
    now1 now2 flows clients cid sid :
  let first := syncFlowWithState now1 flows clients cid sid in
  let second := syncFlowWithState now2 first.2 clients cid sid in
  second.1 = set_lastActivityAt now2 first.1
  ∧ second.2 = <[cid := second.1]> first.2
  ∧ (now2 = now1 → second = first)
  ∧ (∀ st, flows !! cid = Some st →
       stage_index (currentStage st) ≤ stage_index (currentStage first.1))
  ∧ stage_index (currentStage first.1) ≤ stage_index (currentStage second.1).
Proof.
  intros first second.
  pose proof (syncFlowWithState_result now1 flows clients cid sid) as H1.
  simpl in H1. fold first in H1.
  set (st1 := match clients !! cid with
              | Some c => sync_with_client c (sync_start now1 flows cid sid)
              | None => sync_start now1 flows cid sid
              end) in *.
  assert (Hstart : sync_start now2 first.2 cid sid = set_lastActivityAt now1 st1).
  { unfold sync_start. rewrite H1. simpl. by rewrite lookup_insert_eq. }
  pose proof (syncFlowWithState_result now2 first.2 clients cid sid) as H2.
  simpl in H2. fold second in H2. rewrite Hstart in H2.
  assert (Hst2 : match clients !! cid with
                 | Some c => sync_with_client c (set_lastActivityAt now1 st1)
                 | None => set_lastActivityAt now1 st1
                 end = set_lastActivityAt now1 st1).
  { unfold st1. destruct (clients !! cid) as [c|]; [|done].
    by rewrite sync_with_client_lastActivityAt, sync_with_client_idemp. }
  rewrite Hst2, set_lastActivityAt_twice in H2.
  assert (Hsecond : second.1 = set_lastActivityAt now2 first.1).
  { rewrite H2, H1. reflexivity. }
  split_and!.
  - exact Hsecond.
  - rewrite H2. reflexivity.
  - intros ->. rewrite H2, H1. simpl. f_equal. by rewrite insert_insert_eq.
  - intros st Hst. rewrite H1. simpl. unfold st1, sync_start. rewrite Hst.
    destruct (clients !! cid) as [c|]; [|lia].
    apply sync_with_client_currentStage.
  - rewrite Hsecond. simpl. lia.
Qed.

Lemma syncFlowWithState_idempotent_up_to_timestamp_witness :
  let flows := (initializeFlow 0 ∅ "c1" "s1").2 in
  let first := syncFlowWithState 1 flows db_intake_done "c1" "s1" in
  let second := syncFlowWithState 1 first.2 db_intake_done "c1" "s1" in
  second = first
  ∧ stage_index (currentStage (initializeFlow 0 ∅ "c1" "s1").1)
    ≤ stage_index (currentStage first.1).
Proof.
  pose proof (syncFlowWithState_idempotent_up_to_timestamp 1 1
                (initializeFlow 0 ∅ "c1" "s1").2 db_intake_done "c1" "s1")
    as (_ & _ & Hsame & Hstage & _).
  split.
  - apply Hsame. reflexivity.
  - apply Hstage. vm_compute. reflexivity.
Defined.

(** ** Complexity levels *)

(** C5: for every integer score in [0,100], [getComplexityLevel] returns
    simple exactly on [0,20], moderate exactly on [21,50], complex exactly
    on [51,80] and expert exactly on [81,100]; in particular 20 is simple,
    21 is moderate, 80 is complex and 81 is expert. *)
Theorem getComplexityLevel_tiers (s : Z) :
  0 ≤ s ≤ 100 →
  (getComplexityLevel s = simple ↔ 0 ≤ s ≤ 20)
  ∧ (getComplexityLevel s = moderate ↔ 21 ≤ s ≤ 50)
  ∧ (getComplexityLevel s = complex ↔ 51 ≤ s ≤ 80)
  ∧ (getComplexityLevel s = expert ↔ 81 ≤ s ≤ 100)
  ∧ getComplexityLevel 20 = simple
  ∧ getComplexityLevel 21 = moderate
  ∧ getComplexityLevel 80 = complex
  ∧ getComplexityLevel 81 = expert.
Proof.
  intros Hs. unfold getComplexityLevel.
  split_and!; try reflexivity;
    destruct (Z.leb_spec s 20), (Z.leb_spec s 50), (Z.leb_spec s 80);
    split; intros; try discriminate; try lia; reflexivity.
Qed.

Lemma getComplexityLevel_tiers_witness :
  0 ≤ 50 ≤ 100
  ∧ (getComplexityLevel 50 = simple ↔ 0 ≤ 50 ≤ 20)
  ∧ (getComplexityLevel 50 = moderate ↔ 21 ≤ 50 ≤ 50)
  ∧ (getComplexityLevel 50 = complex ↔ 51 ≤ 50 ≤ 80)
  ∧ (getComplexityLevel 50 = expert ↔ 81 ≤ 50 ≤ 100)
  ∧ getComplexityLevel 20 = simple
  ∧ getComplexityLevel 21 = moderate
  ∧ getComplexityLevel 80 = complex
  ∧ getComplexityLevel 81 = expert.
Proof. split; [lia|]. apply (getComplexityLevel_tiers 50). lia. Defined.

(** The roster loader classifies the upper end of a professional's range
    by the same thresholds. *)
Lemma determineMaxComplexity_getComplexityLevel (minLevel maxLevel : Z) :
  determineMaxComplexity minLevel maxLevel = getComplexityLevel maxLevel.
Proof.
  unfold determineMaxComplexity, getComplexityLevel.
  destruct (Z.leb_spec 81 maxLevel), (Z.leb_spec 51 maxLevel),
    (Z.leb_spec 21 maxLevel), (Z.leb_spec maxLevel 20),
    (Z.leb_spec maxLevel 50), (Z.leb_spec maxLevel 80); try reflexivity; lia.
Qed.

Lemma level_ordinal_getComplexityLevel_mono (s1 s2 : Z) :
  s1 ≤ s2 →
  level_ordinal (getComplexityLevel s1) ≤ level_ordinal (getComplexityLevel s2).
Proof.
  intros H. unfold getComplexityLevel.
  destruct (Z.leb_spec s1 20), (Z.leb_spec s1 50), (Z.leb_spec s1 80),
    (Z.leb_spec s2 20), (Z.leb_spec s2 50), (Z.leb_spec s2 80); simpl; lia.
Qed.

(** ** Complexity score *)

Lemma sum_weights_app w (l1 l2 : list string) :
  sum_weights w (l1 ++ l2) = sum_weights w l1 + sum_weights w l2.
Proof.
  unfold sum_weights. induction l1 as [|t l1 IH]; simpl; [done|].
  rewrite IH. lia.
Qed.

Section RoutingProperties.

Context (filingStatusWeight : string → Z) (dependentsWeight : Z → Z)
  (incomeWeight deductionWeight : string → Z) (specialWeight : string → N)
  (specializationOfTag : string → list Specialization).

Local Abbreviation score :=
  (calculateComplexityScore filingStatusWeight dependentsWeight
     incomeWeight deductionWeight specialWeight).

Local Abbreviation required := (getRequiredSpecializations specializationOfTag).

Local Abbreviation best :=
  (findBestTaxPro filingStatusWeight dependentsWeight incomeWeight
     deductionWeight specialWeight specializationOfTag).

Lemma calculateComplexityScore_range c : 0 ≤ score c ≤ 100.
Proof. unfold calculateComplexityScore. lia. Qed.

Lemma raw_score_add_special_situation t c :
  raw_score filingStatusWeight dependentsWeight incomeWeight deductionWeight
    specialWeight (add_special_situation t c)
  = raw_score filingStatusWeight dependentsWeight incomeWeight
      deductionWeight specialWeight c
    + Z.of_N (specialWeight t).
Proof. unfold raw_score. simpl. rewrite sum_weights_app. simpl. lia. Qed.

(** C6: [calculateComplexityScore] is monotonic in the special-situation
    tags: for every client profile and every special-situation tag that
    the client does not have yet, the score of the profile extended with
    the tag is greater than or equal to the score of the profile. *)
Theorem calculateComplexityScore_monotone (c : ClientProfile) (t : string) :
  t ∉ specialSituations c →
  score c ≤ score (add_special_situation t c).
Proof.
  intros _. unfold calculateComplexityScore.
  rewrite raw_score_add_special_situation. lia.
Qed.

(** ** Routing *)

Lemma elem_of_insert_ranked tp x l :
  x ∈ insert_ranked tp l ↔ x = tp ∨ x ∈ l.
Proof.
  induction l as [|y l IH]; simpl.
  - rewrite list_elem_of_singleton. split; [by left | by intros [|?%elem_of_nil]].
  - destruct (ranks_before tp y).
    + by rewrite elem_of_cons.
    + rewrite !elem_of_cons, IH. tauto.
Qed.

Lemma elem_of_rank x l : x ∈ rank l ↔ x ∈ l.
Proof.
  unfold rank. induction l as [|y l IH]; simpl; [done|].
  rewrite elem_of_insert_ranked, elem_of_cons, IH. done.
Qed.

Lemma eligible_spec level req tp :
  eligible level req tp = true ↔
    level_ordinal level ≤ level_ordinal (maxComplexity tp)
    ∧ (∀ s, s ∈ req → s ∈ specializations tp)
    ∧ available tp = true
    ∧ currentLoad tp < maxDailyAppointments tp.
Proof.
  unfold eligible. rewrite !andb_true_iff, Z.leb_le, Z.ltb_lt, forallb_forall.
  unfold includes.
  split.
  - intros [[[H1 H2] H3] H4]. split_and!; try done.
    intros s Hs%list_elem_of_In. exact (bool_decide_eq_true_1 _ (H2 s Hs)).
  - intros (H1 & H2 & H3 & H4). split_and!; try done.
    intros s Hs%list_elem_of_In. apply bool_decide_eq_true_2, H2, Hs.
Qed.

Lemma elem_of_getAvailableTaxPros tp taxPros :
  tp ∈ getAvailableTaxPros taxPros ↔
    tp ∈ taxPros ∧ available tp = true
    ∧ currentLoad tp < maxDailyAppointments tp.
Proof.
  unfold getAvailableTaxPros.
  rewrite !list_elem_of_In, filter_In, andb_true_iff, Z.ltb_lt. tauto.
Qed.

(** C7: a professional that [findBestTaxPro] returns, as the match or
    among the alternates, handles the client's complexity level, is
    below the daily maximum, is available, and has every required
    specialization; the professional belongs to the roster, and to what
    [getAvailableTaxPros] keeps of it. *)
Theorem findBestTaxPro_returns_eligible
    (taxPros : list TaxProfessional) (c : ClientProfile) (p : TaxProfessional) :
  taxPro (best taxPros c) = Some p ∨ p ∈ alternates (best taxPros c) →
  level_ordinal (getComplexityLevel (score c)) ≤ level_ordinal (maxComplexity p)
  ∧ currentLoad p < maxDailyAppointments p
  ∧ available p = true
  ∧ (∀ s, s ∈ required c → s ∈ specializations p)
  ∧ p ∈ getAvailableTaxPros taxPros.
Proof.
  intros Hp.
  assert (Hin : p ∈ List.filter (eligible (getComplexityLevel (score c)) (required c))
                      taxPros).
  { apply elem_of_rank. unfold findBestTaxPro in Hp.
    destruct (rank _) as [|b others]; simpl in Hp.
    - destruct Hp as [? | ?%elem_of_nil]; done.
    - destruct Hp as [[= ->] | Hp]; [by left|].
      right. by apply (subseteq_take maxAlternates). }
  apply list_elem_of_In, filter_In in Hin as [Hroster Hel].
  apply eligible_spec in Hel as (H1 & H2 & H3 & H4).
  split_and!; try done.
  apply elem_of_getAvailableTaxPros. by rewrite list_elem_of_In.
Qed.

End RoutingProperties.

Lemma calculateComplexityScore_monotone_witness :
  ("crypto" ∉ specialSituations (example_client true None))
  ∧ example_score (example_client true None)
    ≤ example_score (add_special_situation "crypto" (example_client true None)).
Proof.
  split; [apply not_elem_of_nil|].
  apply (calculateComplexityScore_monotone example_filing_weight
           example_dependents_weight example_income_weight
           example_deduction_weight example_special_weight
           (example_client true None) "crypto").
  apply not_elem_of_nil.
Defined.

Lemma findBestTaxPro_returns_eligible_witness :
  ∃ p,
    taxPro (example_findBestTaxPro fallbackPros crypto_client) = Some p
    ∧ tp_id p = "tp-002"
    ∧ level_ordinal (getComplexityLevel (example_score crypto_client))
      ≤ level_ordinal (maxComplexity p)
    ∧ currentLoad p < maxDailyAppointments p
    ∧ available p = true
    ∧ (∀ s, s ∈ getRequiredSpecializations example_specialization_of_tag crypto_client →
         s ∈ specializations p)
    ∧ p ∈ getAvailableTaxPros fallbackPros.
Proof.
  eexists. split; [vm_compute; reflexivity|]. split; [reflexivity|].
  apply (findBestTaxPro_returns_eligible example_filing_weight
           example_dependents_weight example_income_weight
           example_deduction_weight example_special_weight
           example_specialization_of_tag fallbackPros crypto_client).
  left. vm_compute. reflexivity.
Defined.


(** * Further properties of the flow manager *)

(** ** Completion checks and status *)

Lemma completion_no_blockers ok blocker_free msg :
  blockers (completion ok blocker_free msg) = [] ↔ blocker_free = true.
Proof. unfold completion. destruct blocker_free; simpl; split; done. Qed.

Lemma is_true_strict_truthy v : is_true_strict v = true → truthy v = true.
Proof. by destruct v as [| |[]| | |]. Qed.

(** A completion check reports no blocker exactly when the stage can be
    left, or when the marker it reads is truthy without being [true]: in
    that case the stage cannot be left and still no blocker is listed. *)
Theorem completionCheck_no_blockers_iff stage st client :
  blockers (completionCheck stage st client) = []
  ↔ canProceed (completionCheck stage st client) = true
    ∨ ∃ v, marker_value stage st = Some v
           ∧ truthy v = true ∧ is_true_strict v = false.
Proof.
  assert (Hmarker : ∀ v,
            truthy v = true
            ↔ is_true_strict v = true
              ∨ ∃ w, Some v = Some w ∧ truthy w = true ∧ is_true_strict w = false).
  { intros v. split.
    - intros Ht. destruct (is_true_strict v) eqn:Hs; [by left|].
      right. by exists v.
    - intros [Hs | (w & [= <-] & Ht & _)]; [by apply is_true_strict_truthy | done]. }
  assert (Hplain : ∀ b msg,
            blockers (completion b b msg) = []
            ↔ canProceed (completion b b msg) = true
              ∨ ∃ v : JsVal, None = Some v ∧ truthy v = true
                             ∧ is_true_strict v = false).
  { intros b msg. rewrite completion_no_blockers. simpl. split; [by left|].
    by intros [? | (? & [=] & _)]. }
  unfold marker_value.
  destruct stage; simpl; try apply Hplain;
    try (rewrite <- Hmarker; by destruct (truthy _)).
  split; [by left | done].
Qed.

(** A numeric marker blocks the stage without a blocker being reported. *)
Example completionCheck_blocked_without_blocker :
  let st :=
    set_stageData {[ summary_review := {[ "shown" := JNum 1 ]} ]}
      (set_currentStage summary_review (initializeFlow 0 ∅ "c1" "s1").1) in
  completionCheck summary_review st None
  = {| canProceed := false; blockers := [] |}.
Proof. vm_compute. reflexivity. Qed.

Lemma indexOf_FLOW_SEQUENCE s : indexOf FLOW_SEQUENCE s = stage_index s.
Proof. reflexivity. Qed.

(** For every flow [getFlowStatus] reports the stored stage, its position
    from 1 to 10 out of 10, and ten times that position as percentage. *)
Theorem getFlowStatus_progress flows clients cid st :
  flows !! cid = Some st →
  ∃ r,
    getFlowStatus flows clients cid = Some r
    ∧ res_currentStage r = currentStage st
    ∧ res_canProceed r
      = canProceed (completionCheck (currentStage st) st (clients !! cid))
    ∧ current (res_progress r) = stage_index (currentStage st) + 1
    ∧ 1 ≤ current (res_progress r) ≤ 10
    ∧ total (res_progress r) = 10
    ∧ percentage (res_progress r) = 10 * current (res_progress r).
Proof.
  intros H. unfold getFlowStatus. rewrite H. eexists. split; [reflexivity|].
  simpl. rewrite indexOf_FLOW_SEQUENCE.
  pose proof (stage_index_range (currentStage st)).
  split_and!; try done; try lia.
  unfold round_percent. change (Z.of_nat (length FLOW_SEQUENCE)) with 10.
  symmetry. apply Z.div_unique with (r := 10); lia.
Qed.

Lemma getFlowStatus_progress_witness :
  let flows := run_ops full_conversation ∅ in
  ∃ st r,
    flows !! "c1" = Some st
    ∧ getFlowStatus flows db_appointment_booked "c1" = Some r
    ∧ res_currentStage r = currentStage st
    ∧ percentage (res_progress r) = 100.
Proof.
  destruct (getFlowStatus_progress (run_ops full_conversation ∅)
              db_appointment_booked "c1"
              (default (initializeFlow 0 ∅ "c1" "s1").1
                 (run_ops full_conversation ∅ !! "c1")))
    as (r & Hr & Hstage & _ & Hcur & _ & _ & Hpct).
  { vm_compute. reflexivity. }
  eexists _, r. split; [vm_compute; reflexivity|].
  split; [exact Hr|]. split; [exact Hstage|].
  rewrite Hpct, Hcur. vm_compute. reflexivity.
Defined.

(** The status that [advanceFlow] and its three wrappers return is the
    status of the registry they leave behind, and it is null exactly when
    the client has no flow. *)
Theorem flow_operations_return_final_status
    now flows clients cid sd preferences taxProId :
  let a := advanceFlow now flows clients cid sd in
  let c := confirmSummary now flows clients cid in
  let p := setSchedulingPreferences now flows clients cid preferences in
  let t := setSelectedTaxPro now flows clients cid taxProId in
  (a.1 = getFlowStatus a.2 clients cid ∧ (a.1 = None ↔ flows !! cid = None))
  ∧ (c.1 = getFlowStatus c.2 clients cid ∧ (c.1 = None ↔ flows !! cid = None))
  ∧ (p.1 = getFlowStatus p.2 clients cid ∧ (p.1 = None ↔ flows !! cid = None))
  ∧ (t.1 = getFlowStatus t.2 clients cid ∧ (t.1 = None ↔ flows !! cid = None)).
Proof.
  assert (Hadv : ∀ fl d,
             let a := advanceFlow now fl clients cid d in
             a.1 = getFlowStatus a.2 clients cid
             ∧ (a.1 = None ↔ fl !! cid = None)).
  { intros fl d. unfold advanceFlow.
    destruct (fl !! cid) as [st|] eqn:Hst; simpl.
    - split; [done|]. unfold getFlowStatus. rewrite lookup_insert_eq.
      split; discriminate.
    - unfold getFlowStatus. by rewrite Hst. }
  simpl. split_and!; try apply Hadv.
  - unfold confirmSummary. destruct (flows !! cid) as [st|] eqn:Hst.
    + apply Hadv.
    + simpl. unfold getFlowStatus. by rewrite Hst.
  - unfold confirmSummary. destruct (flows !! cid) as [st|] eqn:Hst; [|done].
    rewrite (proj2 (Hadv _ _)), lookup_insert_eq. split; discriminate.
  - unfold setSchedulingPreferences. destruct (flows !! cid) as [st|] eqn:Hst.
    + apply Hadv.
    + simpl. unfold getFlowStatus. by rewrite Hst.
  - unfold setSchedulingPreferences.
    destruct (flows !! cid) as [st|] eqn:Hst; [|done].
    rewrite (proj2 (Hadv _ _)), lookup_insert_eq. split; discriminate.
  - unfold setSelectedTaxPro. destruct (flows !! cid) as [st|] eqn:Hst.
    + apply Hadv.
    + simpl. unfold getFlowStatus. by rewrite Hst.
  - unfold setSelectedTaxPro. destruct (flows !! cid) as [st|] eqn:Hst; [|done].
    rewrite (proj2 (Hadv _ _)), lookup_insert_eq. split; discriminate.
Qed.

(** ** Other clients *)

Lemma advanceFlow_other now flows clients cid sd other :
  other ≠ cid →
  (advanceFlow now flows clients cid sd).2 !! other = flows !! other.
Proof.
  intros Hne. unfold advanceFlow. destruct (flows !! cid); [|done].
  simpl. by rewrite lookup_insert_ne.
Qed.

Lemma run_op_lookup_ne now clients op flows other :
  other ≠ op_client op →
  run_op now clients op flows !! other = flows !! other.
Proof.
  intros Hne. destruct op as [cid sid|cid sd|cid|cid p|cid t|cid sid];
    simpl in *.
  - by rewrite lookup_insert_ne.
  - by apply advanceFlow_other.
  - unfold confirmSummary. destruct (flows !! cid); [|done].
    rewrite advanceFlow_other by done. by rewrite lookup_insert_ne.
  - unfold setSchedulingPreferences. destruct (flows !! cid); [|done].
    rewrite advanceFlow_other by done. by rewrite lookup_insert_ne.
  - unfold setSelectedTaxPro. destruct (flows !! cid); [|done].
    rewrite advanceFlow_other by done. by rewrite lookup_insert_ne.
  - unfold syncFlowWithState. destruct (flows !! cid); simpl.
    + by rewrite lookup_insert_ne.
    + by rewrite !lookup_insert_ne.
Qed.

(** A flow operation leaves the flows of all other clients as they are. *)
Theorem run_op_other_clients now clients op flows other :
  other ≠ op_client op →
  run_op now clients op flows !! other = flows !! other.
Proof. apply run_op_lookup_ne. Qed.

Lemma run_op_other_clients_witness :
  "c1" ≠ op_client (OpSyncFlowWithState "c2" "s2")
  ∧ run_op 20 db_appointment_booked (OpSyncFlowWithState "c2" "s2")
      (run_ops full_conversation ∅) !! "c1"
    = run_ops full_conversation ∅ !! "c1".
Proof.
  split; [discriminate|].
  apply (run_op_other_clients 20 db_appointment_booked
           (OpSyncFlowWithState "c2" "s2") (run_ops full_conversation ∅) "c1").
  discriminate.
Defined.

(** ** Stage data *)

(** [advanceFlow] merges the stage data it is given into the data of the
    stage that is current when it is called, whether or not the flow then
    moves on: the keys given take the new values, the other keys of that
    stage keep theirs, and the data of the other stages is untouched. *)
Theorem advanceFlow_merges_stage_data now flows clients cid sd st :
  flows !! cid = Some st →
  ∃ st' entry,
    (advanceFlow now flows clients cid (Some sd)).2 !! cid = Some st'
    ∧ stageData st' !! currentStage st = Some entry
    ∧ (∀ k v, sd !! k = Some v → entry !! k = Some v)
    ∧ (∀ k, sd !! k = None →
         entry !! k = default ∅ (stageData st !! currentStage st) !! k)
    ∧ (∀ s, s ≠ currentStage st → stageData st' !! s = stageData st !! s).
Proof.
  intros H.
  rewrite (advanceFlow_registry _ _ _ _ _ st H), lookup_insert_eq.
  assert (Hdata : stageData (advance_state now (clients !! cid) (Some sd) st)
                  = <[currentStage st :=
                        sd ∪ default ∅ (stageData st !! currentStage st)]>
                      (stageData st)).
  { unfold advance_state. destruct (canProceed _); [|done].
    unfold mark_and_move. destruct (Z.ltb _ _); [|done].
    by destruct (FLOW_SEQUENCE !! _). }
  eexists _, _. split; [reflexivity|]. rewrite Hdata.
  split; [apply lookup_insert_eq|]. split_and!.
  - intros k v Hk. by apply lookup_union_Some_l.
  - intros k Hk. by apply lookup_union_r.
  - intros s Hs. by apply lookup_insert_ne.
Qed.

Lemma advanceFlow_merges_stage_data_witness :
  let flows := run_ops (take 5 full_conversation) ∅ in
  ∃ st st',
    flows !! "c1" = Some st
    ∧ currentStage st = document_checklist
    ∧ (advanceFlow 5 flows db_intake_done "c1"
         (Some {[ "documentCount" := JNum 4 ]})).2 !! "c1" = Some st'
    ∧ currentStage st' = document_checklist
    ∧ stageData st' !! document_checklist = Some {[ "documentCount" := JNum 4 ]}.
Proof.
  destruct (advanceFlow_merges_stage_data 5 (run_ops (take 5 full_conversation) ∅)
              db_intake_done "c1" {[ "documentCount" := JNum 4 ]}
              (default (initializeFlow 0 ∅ "c1" "s1").1
                 (run_ops (take 5 full_conversation) ∅ !! "c1")))
    as (st' & entry & Hst' & _).
  { vm_compute. reflexivity. }
  eexists _, st'. split; [vm_compute; reflexivity|]. split; [reflexivity|].
  split; [exact Hst'|].
  revert Hst'. vm_compute. intros [= <-]. split; reflexivity.
Defined.

(** A call of [advanceFlow] without stage data on a stage whose check
    fails changes nothing, not even the activity timestamp. *)
Theorem advanceFlow_blocked_changes_nothing now flows clients cid st :
  flows !! cid = Some st →
  canProceed (completionCheck (currentStage st) st (clients !! cid)) = false →
  advanceFlow now flows clients cid None
  = (getFlowStatus flows clients cid, flows).
Proof.
  intros H Hblocked. unfold advanceFlow. rewrite H.
  unfold advance_state. simpl. rewrite Hblocked.
  by rewrite insert_id.
Qed.

Lemma advanceFlow_blocked_changes_nothing_witness :
  let flows := run_ops (take 2 full_conversation) ∅ in
  advanceFlow 7 flows db_intake_running "c1" None
  = (getFlowStatus flows db_intake_running "c1", flows).
Proof.
  apply (advanceFlow_blocked_changes_nothing 7
           (run_ops (take 2 full_conversation) ∅) db_intake_running "c1"
           (default (initializeFlow 0 ∅ "c1" "s1").1
              (run_ops (take 2 full_conversation) ∅ !! "c1"))).
  - vm_compute. reflexivity.
  - vm_compute. reflexivity.
Defined.


(** ** What a call leaves of a state *)

Lemma mark_and_move_fields now st :
  clientId (mark_and_move now st) = clientId st
  ∧ sessionId (mark_and_move now st) = sessionId st
  ∧ stageData (mark_and_move now st) = stageData st
  ∧ startedAt (mark_and_move now st) = startedAt st
  ∧ summaryConfirmed (mark_and_move now st) = summaryConfirmed st
  ∧ selectedTaxProId (mark_and_move now st) = selectedTaxProId st
  ∧ preferredSchedule (mark_and_move now st) = preferredSchedule st
  ∧ lastActivityAt (mark_and_move now st) = now.
Proof.
  unfold mark_and_move. destruct (Z.ltb _ _); [|done].
  by destruct (FLOW_SEQUENCE !! _).
Qed.

Lemma store_stage_data_fields sd st :
  clientId (store_stage_data sd st) = clientId st
  ∧ sessionId (store_stage_data sd st) = sessionId st
  ∧ startedAt (store_stage_data sd st) = startedAt st
  ∧ summaryConfirmed (store_stage_data sd st) = summaryConfirmed st
  ∧ selectedTaxProId (store_stage_data sd st) = selectedTaxProId st
  ∧ preferredSchedule (store_stage_data sd st) = preferredSchedule st.
Proof. by destruct sd. Qed.

Lemma push_if_missing_prefix {A} `{EqDecision A} (l : list A) x :
  l `prefix_of` push_if_missing l x.
Proof.
  unfold push_if_missing. destruct (includes l x); [done|].
  by apply prefix_app_r.
Qed.

Lemma keeps_progress_refl st : keeps_progress st st.
Proof. unfold keeps_progress. split_and!; try done; lia. Qed.

Lemma keeps_progress_trans st1 st2 st3 :
  keeps_progress st1 st2 → keeps_progress st2 st3 → keeps_progress st1 st3.
Proof.
  intros (A1 & A2 & A3 & A4 & A5 & A6 & A7 & A8)
         (B1 & B2 & B3 & B4 & B5 & B6 & B7 & B8).
  unfold keeps_progress. split_and!; try congruence; try lia; try tauto.
  by etrans.
Qed.

Lemma keeps_progress_store_stage_data sd st :
  keeps_progress st (store_stage_data sd st).
Proof.
  destruct sd; [|apply keeps_progress_refl].
  unfold keeps_progress; simpl; split_and!; try done; lia.
Qed.

Lemma keeps_progress_mark_and_move now st :
  keeps_progress st (mark_and_move now st).
Proof.
  destruct (mark_and_move_fields now st) as (F1 & F2 & _ & F4 & F5 & F6 & F7 & _).
  pose proof (stage_index_range (currentStage st)).
  unfold keeps_progress.
  rewrite F1, F2, F4, F5, F6, F7, mark_and_move_completedStages,
    mark_and_move_currentStage.
  split_and!; try done; try lia. apply push_if_missing_prefix.
Qed.

Lemma keeps_progress_advance_state now client sd st :
  keeps_progress st (advance_state now client sd st).
Proof.
  destruct (advance_state_cases now client sd st) as [-> | ->].
  - apply keeps_progress_store_stage_data.
  - eapply keeps_progress_trans; [apply keeps_progress_store_stage_data|].
    apply keeps_progress_mark_and_move.
Qed.

Lemma keeps_progress_sync_intake client st :
  keeps_progress st (sync_intake client st).
Proof.
  unfold sync_intake. destruct (_ && negb _); [|apply keeps_progress_refl].
  assert (Hpre : completedStages st `prefix_of`
            push_if_missing (push_if_missing (completedStages st) welcome)
              intake_questions).
  { etrans; apply push_if_missing_prefix. }
  pose proof (stage_index_range (currentStage st)).
  simpl.
  destruct (bool_decide (currentStage st = welcome)
            || bool_decide (currentStage st = intake_questions)) eqn:Hat;
    unfold keeps_progress; simpl; split_and!; try done; try lia.
  apply orb_true_iff in Hat as [Hat%bool_decide_eq_true | Hat%bool_decide_eq_true];
    rewrite Hat; by vm_compute.
Qed.

Lemma keeps_progress_sync_checklist client st :
  keeps_progress st (sync_checklist client st).
Proof.
  unfold sync_checklist. destruct (_ || _); [|apply keeps_progress_refl].
  unfold keeps_progress; simpl; split_and!; try done; lia.
Qed.

Lemma keeps_progress_sync_taxpro client st :
  keeps_progress st (sync_taxpro client st).
Proof.
  unfold sync_taxpro.
  destruct (truthy_opt_str _) eqn:Ht; [|apply keeps_progress_refl].
  unfold keeps_progress; simpl; split_and!; try done; try lia.
  intros _. by destruct (assignedTaxPro client).
Qed.

Lemma keeps_progress_sync_appointment client st :
  keeps_progress st (sync_appointment client st).
Proof.
  unfold sync_appointment.
  destruct (truthy_opt_str _); [|apply keeps_progress_refl].
  unfold keeps_progress; simpl; split_and!; try done; try lia.
  apply push_if_missing_prefix.
Qed.

Lemma keeps_progress_sync_with_client client st :
  keeps_progress st (sync_with_client client st).
Proof.
  unfold sync_with_client.
  apply keeps_progress_trans with (sync_intake client st);
    [apply keeps_progress_sync_intake|].
  apply keeps_progress_trans with (sync_checklist client (sync_intake client st));
    [apply keeps_progress_sync_checklist|].
  apply keeps_progress_trans
    with (sync_taxpro client (sync_checklist client (sync_intake client st)));
    [apply keeps_progress_sync_taxpro | apply keeps_progress_sync_appointment].
Qed.

Lemma advanceFlow_keeps_progress now flows clients cid sd st st0 :
  flows !! cid = Some st0 →
  keeps_progress st st0 →
  ∃ st', (advanceFlow now flows clients cid sd).2 !! cid = Some st'
         ∧ keeps_progress st st'.
Proof.
  intros H Hk. rewrite (advanceFlow_registry _ _ _ _ _ st0 H), lookup_insert_eq.
  eexists. split; [done|].
  eapply keeps_progress_trans; [exact Hk|]. apply keeps_progress_advance_state.
Qed.

Lemma run_op_on_client now clients op flows st :
  is_initialize op = false →
  flows !! op_client op = Some st →
  ∃ st', run_op now clients op flows !! op_client op = Some st'
         ∧ keeps_progress st st'.
Proof.
  intros Hop H.
  destruct op as [cid sid|cid sd|cid|cid p|cid t|cid sid]; simpl in *;
    try discriminate.
  - eapply advanceFlow_keeps_progress; [done | apply keeps_progress_refl].
  - unfold confirmSummary. rewrite H.
    eapply advanceFlow_keeps_progress; [apply lookup_insert_eq|].
    unfold keeps_progress; simpl; split_and!; try done; lia.
  - unfold setSchedulingPreferences. rewrite H.
    eapply advanceFlow_keeps_progress; [apply lookup_insert_eq|].
    unfold keeps_progress; simpl; split_and!; try done; lia.
  - unfold setSelectedTaxPro. rewrite H.
    eapply advanceFlow_keeps_progress; [apply lookup_insert_eq|].
    unfold keeps_progress; simpl; split_and!; try done; lia.
  - unfold syncFlowWithState. rewrite H. simpl. rewrite lookup_insert_eq.
    eexists. split; [done|].
    destruct (clients !! cid) as [c|].
    + eapply keeps_progress_trans; [apply keeps_progress_sync_with_client|].
      unfold keeps_progress; simpl; split_and!; try done; lia.
    + unfold keeps_progress; simpl; split_and!; try done; lia.
Qed.

(** Apart from [initializeFlow], no flow operation takes anything back:
    the flow of every client keeps its client id, session id and start
    time, its stage never moves backward, its completed stages are only
    appended to, and a confirmed summary, recorded scheduling preferences
    and a selected tax professional stay recorded. *)
Theorem run_op_keeps_progress now clients op flows cid st :
  is_initialize op = false →
  flows !! cid = Some st →
  ∃ st', run_op now clients op flows !! cid = Some st' ∧ keeps_progress st st'.
Proof.
  intros Hop H. destruct (decide (cid = op_client op)) as [-> | Hne].
  - by apply run_op_on_client.
  - exists st. split; [|apply keeps_progress_refl].
    by rewrite run_op_lookup_ne.
Qed.

Lemma run_op_keeps_progress_witness :
  let flows := run_ops (take 5 full_conversation) ∅ in
  ∃ st st',
    flows !! "c1" = Some st
    ∧ run_op 9 db_appointment_booked (OpSyncFlowWithState "c1" "other-session")
        flows !! "c1" = Some st'
    ∧ keeps_progress st st'.
Proof.
  destruct (run_op_keeps_progress 9 db_appointment_booked
              (OpSyncFlowWithState "c1" "other-session")
              (run_ops (take 5 full_conversation) ∅) "c1"
              (default (initializeFlow 0 ∅ "c1" "s1").1
                 (run_ops (take 5 full_conversation) ∅ !! "c1")))
    as (st' & Hst' & Hk).
  { reflexivity. }
  { vm_compute. reflexivity. }
  eexists _, st'. split; [vm_compute; reflexivity|]. split; [exact Hst' | exact Hk].
Defined.

(** In every reachable registry a flow is stored under the client id that
    it carries. *)
Theorem reachable_flows_keyed_by_clientId flows cid st :
  reachable flows → flows !! cid = Some st → clientId st = cid.
Proof.
  intros Hreach. revert cid st.
  induction Hreach as [|now clients op flows _ IH]; intros cid st H.
  - by rewrite lookup_empty in H.
  - destruct (decide (cid = op_client op)) as [-> | Hne].
    + destruct (is_initialize op) eqn:Hop.
      * destruct op; try discriminate. simpl in H.
        rewrite lookup_insert_eq in H. by injection H as <-.
      * destruct (flows !! op_client op) as [st0|] eqn:Hst0.
        -- destruct (run_op_on_client now clients op flows st0 Hop Hst0)
             as (st' & Hst' & Hk & _).
           rewrite Hst' in H. injection H as <-. rewrite Hk. by apply IH.
        -- destruct op as [c s|c sd|c|c p|c t|c s]; simpl in *;
             try discriminate.
           ++ unfold advanceFlow in H. rewrite Hst0 in H. simpl in H. congruence.
           ++ unfold confirmSummary in H. rewrite Hst0 in H. simpl in H. congruence.
           ++ unfold setSchedulingPreferences in H. rewrite Hst0 in H.
              simpl in H. congruence.
           ++ unfold setSelectedTaxPro in H. rewrite Hst0 in H. simpl in H.
              congruence.
           ++ unfold syncFlowWithState in H. rewrite Hst0 in H. simpl in H.
              rewrite lookup_insert_eq in H. injection H as <-.
              destruct (clients !! c) as [cl|]; simpl; [|done].
              exact (proj1 (keeps_progress_sync_with_client cl
                              (initializeFlow now flows c s).1)).
    + apply IH. by rewrite <- H, run_op_lookup_ne.
Qed.

Lemma reachable_flows_keyed_by_clientId_witness :
  ∃ st, run_ops full_conversation ∅ !! "c1" = Some st ∧ clientId st = "c1".
Proof.
  eexists. split; [vm_compute; reflexivity|].
  apply (reachable_flows_keyed_by_clientId (run_ops full_conversation ∅) "c1").
  - apply reachable_run_ops, reachable_empty.
  - vm_compute. reflexivity.
Defined.

(** ** The wrappers and the stage markers *)

Lemma advance_state_proceeds now client sd st :
  canProceed
    (completionCheck (currentStage st) (store_stage_data sd st) client) = true →
  advance_state now client sd st = mark_and_move now (store_stage_data sd st).
Proof.
  intros H. unfold advance_state.
  by rewrite store_stage_data_currentStage, H.
Qed.

Lemma mark_and_move_next now st next :
  stage_index next = stage_index (currentStage st) + 1 →
  currentStage (mark_and_move now st) = next
  ∧ currentStage st ∈ completedStages (mark_and_move now st).
Proof.
  intros Hnext. pose proof (stage_index_range next). split.
  - apply stage_index_inj. rewrite mark_and_move_currentStage. lia.
  - rewrite mark_and_move_completedStages. apply elem_of_push_if_missing.
    by right.
Qed.

Lemma advance_state_None_fields now client st :
  stageData (advance_state now client None st) = stageData st
  ∧ summaryConfirmed (advance_state now client None st) = summaryConfirmed st
  ∧ selectedTaxProId (advance_state now client None st) = selectedTaxProId st
  ∧ preferredSchedule (advance_state now client None st) = preferredSchedule st.
Proof.
  destruct (advance_state_cases now client None st) as [-> | ->]; [done|].
  destruct (mark_and_move_fields now st) as (_ & _ & ? & _ & ? & ? & ? & _).
  done.
Qed.

(** [confirmSummary] records the confirmation whatever the stage of the
    flow, and when the flow is at [summary_confirmation] it moves it to
    [document_checklist]. *)
Theorem confirmSummary_effect now flows clients cid st :
  flows !! cid = Some st →
  ∃ st',
    (confirmSummary now flows clients cid).2 !! cid = Some st'
    ∧ summaryConfirmed st' = true
    ∧ stageData st' !! summary_confirmation
      = Some {[ "confirmed" := JBool true ]}
    ∧ (currentStage st = summary_confirmation →
       currentStage st' = document_checklist
       ∧ summary_confirmation ∈ completedStages st').
Proof.
  intros H. unfold confirmSummary. rewrite H.
  erewrite advanceFlow_registry by apply lookup_insert_eq.
  rewrite lookup_insert_eq. eexists. split; [reflexivity|].
  match goal with |- context [advance_state now ?c None ?s] =>
    destruct (advance_state_None_fields now c s) as (Hd & Hc & _ & _);
    set (st2 := s) in *
  end.
  rewrite Hd, Hc. split; [done|]. split; [apply lookup_insert_eq|].
  intros Hcur.
  rewrite (advance_state_proceeds now _ None st2) by (simpl; by rewrite Hcur).
  destruct (mark_and_move_next now (store_stage_data None st2) document_checklist)
    as [Hnext Hin].
  { change (currentStage (store_stage_data None st2)) with (currentStage st).
    by rewrite Hcur. }
  change (currentStage (store_stage_data None st2)) with (currentStage st) in Hin.
  rewrite Hcur in Hin. by split.
Qed.

Lemma confirmSummary_effect_witness :
  let flows := run_ops (take 4 full_conversation) ∅ in
  ∃ st st',
    flows !! "c1" = Some st
    ∧ currentStage st = summary_confirmation
    ∧ (confirmSummary 4 flows db_intake_done "c1").2 !! "c1" = Some st'
    ∧ summaryConfirmed st' = true
    ∧ currentStage st' = document_checklist.
Proof.
  destruct (confirmSummary_effect 4 (run_ops (take 4 full_conversation) ∅)
              db_intake_done "c1"
              (default (initializeFlow 0 ∅ "c1" "s1").1
                 (run_ops (take 4 full_conversation) ∅ !! "c1")))
    as (st' & Hst' & Hconf & _ & Hmove).
  { vm_compute. reflexivity. }
  eexists _, st'. split; [vm_compute; reflexivity|]. split; [reflexivity|].
  split; [exact Hst'|]. split; [exact Hconf|]. apply Hmove. reflexivity.
Defined.

(** [setSchedulingPreferences] records the preferences whatever the stage
    of the flow, and when the flow is at [availability_inquiry] it moves
    it to [taxpro_routing]. *)
Theorem setSchedulingPreferences_effect now flows clients cid preferences st :
  flows !! cid = Some st →
  ∃ st',
    (setSchedulingPreferences now flows clients cid preferences).2 !! cid
      = Some st'
    ∧ preferredSchedule st' = Some preferences
    ∧ stageData st' !! availability_inquiry
      = Some (<["collected" := JBool true]>
                {[ "preferences" := JPrefs preferences ]})
    ∧ (currentStage st = availability_inquiry →
       currentStage st' = taxpro_routing
       ∧ availability_inquiry ∈ completedStages st').
Proof.
  intros H. unfold setSchedulingPreferences. rewrite H.
  erewrite advanceFlow_registry by apply lookup_insert_eq.
  rewrite lookup_insert_eq. eexists. split; [reflexivity|].
  match goal with |- context [advance_state now ?c None ?s] =>
    destruct (advance_state_None_fields now c s) as (Hd & _ & _ & Hp);
    set (st2 := s) in *
  end.
  rewrite Hd, Hp. split; [done|]. split; [apply lookup_insert_eq|].
  intros Hcur.
  rewrite (advance_state_proceeds now _ None st2) by (simpl; by rewrite Hcur).
  destruct (mark_and_move_next now (store_stage_data None st2) taxpro_routing)
    as [Hnext Hin].
  { change (currentStage (store_stage_data None st2)) with (currentStage st).
    by rewrite Hcur. }
  change (currentStage (store_stage_data None st2)) with (currentStage st) in Hin.
  rewrite Hcur in Hin. by split.
Qed.

Lemma setSchedulingPreferences_effect_witness :
  let flows := run_ops (take 6 full_conversation) ∅ in
  ∃ st st',
    flows !! "c1" = Some st
    ∧ currentStage st = availability_inquiry
    ∧ (setSchedulingPreferences 6 flows db_intake_done "c1"
         example_preferences).2 !! "c1" = Some st'
    ∧ preferredSchedule st' = Some example_preferences
    ∧ currentStage st' = taxpro_routing.
Proof.
  destruct (setSchedulingPreferences_effect 6
              (run_ops (take 6 full_conversation) ∅)
              db_intake_done "c1" example_preferences
              (default (initializeFlow 0 ∅ "c1" "s1").1
                 (run_ops (take 6 full_conversation) ∅ !! "c1")))
    as (st' & Hst' & Hpref & _ & Hmove).
  { vm_compute. reflexivity. }
  eexists _, st'. split; [vm_compute; reflexivity|]. split; [reflexivity|].
  split; [exact Hst'|]. split; [exact Hpref|]. apply Hmove. reflexivity.
Defined.

(** [setSelectedTaxPro] records the selection whatever the stage of the
    flow, and when the flow is at [taxpro_routing] it moves it to
    [appointment_scheduling]. *)
Theorem setSelectedTaxPro_effect now flows clients cid taxProId st :
  flows !! cid = Some st →
  ∃ st',
    (setSelectedTaxPro now flows clients cid taxProId).2 !! cid = Some st'
    ∧ selectedTaxProId st' = Some taxProId
    ∧ stageData st' !! taxpro_routing
      = Some (<["selected" := JBool true]> {[ "taxProId" := JStr taxProId ]})
    ∧ (currentStage st = taxpro_routing →
       currentStage st' = appointment_scheduling
       ∧ taxpro_routing ∈ completedStages st').
Proof.
  intros H. unfold setSelectedTaxPro. rewrite H.
  erewrite advanceFlow_registry by apply lookup_insert_eq.
  rewrite lookup_insert_eq. eexists. split; [reflexivity|].
  match goal with |- context [advance_state now ?c None ?s] =>
    destruct (advance_state_None_fields now c s) as (Hd & _ & Hs & _);
    set (st2 := s) in *
  end.
  rewrite Hd, Hs. split; [done|]. split; [apply lookup_insert_eq|].
  intros Hcur.
  rewrite (advance_state_proceeds now _ None st2) by (simpl; by rewrite Hcur).
  destruct (mark_and_move_next now (store_stage_data None st2) appointment_scheduling)
    as [Hnext Hin].
  { change (currentStage (store_stage_data None st2)) with (currentStage st).
    by rewrite Hcur. }
  change (currentStage (store_stage_data None st2)) with (currentStage st) in Hin.
  rewrite Hcur in Hin. by split.
Qed.

Lemma setSelectedTaxPro_effect_witness :
  let flows := run_ops (take 7 full_conversation) ∅ in
  ∃ st st',
    flows !! "c1" = Some st
    ∧ currentStage st = taxpro_routing
    ∧ (setSelectedTaxPro 7 flows db_intake_done "c1" "tp-002").2 !! "c1"
      = Some st'
    ∧ selectedTaxProId st' = Some "tp-002"
    ∧ currentStage st' = appointment_scheduling.
Proof.
  destruct (setSelectedTaxPro_effect 7 (run_ops (take 7 full_conversation) ∅)
              db_intake_done "c1" "tp-002"
              (default (initializeFlow 0 ∅ "c1" "s1").1
                 (run_ops (take 7 full_conversation) ∅ !! "c1")))
    as (st' & Hst' & Hsel & _ & Hmove).
  { vm_compute. reflexivity. }
  eexists _, st'. split; [vm_compute; reflexivity|]. split; [reflexivity|].
  split; [exact Hst'|]. split; [exact Hsel|]. apply Hmove. reflexivity.
Defined.

Lemma marker_payload_proceeds sd st client key :
  marker_key (currentStage st) = Some key →
  sd !! key = Some (JBool true) →
  canProceed
    (completionCheck (currentStage st) (store_stage_data (Some sd) st) client)
  = true
  ∧ stage_index (currentStage st) < 9.
Proof.
  intros Hkey Hsd.
  assert (Hfield : stage_field (store_stage_data (Some sd) st) (currentStage st) key
                   = JBool true).
  { unfold stage_field. simpl. rewrite lookup_insert_eq.
    by rewrite (lookup_union_Some_l _ _ _ _ Hsd). }
  destruct (currentStage st) eqn:Hcur; simpl in Hkey; try discriminate;
    injection Hkey as <-; simpl;
    change (set_stageData _ st) with (store_stage_data (Some sd) st);
    rewrite Hfield; split; try done; by vm_compute.
Qed.

(** At the three stages whose check reads a marker of the stage data --
    [shown] at [summary_review], [generated] at [document_checklist],
    [created] at [reminders_setup] -- a call of [advanceFlow] whose stage
    data sets that marker to [true] moves the flow to the next stage,
    whatever the client store holds. *)
Theorem advanceFlow_marker_payload now flows clients cid sd st key :
  flows !! cid = Some st →
  marker_key (currentStage st) = Some key →
  sd !! key = Some (JBool true) →
  ∃ st',
    (advanceFlow now flows clients cid (Some sd)).2 !! cid = Some st'
    ∧ stage_index (currentStage st') = stage_index (currentStage st) + 1
    ∧ currentStage st ∈ completedStages st'.
Proof.
  intros H Hkey Hsd.
  rewrite (advanceFlow_registry _ _ _ _ _ st H), lookup_insert_eq.
  eexists. split; [reflexivity|].
  destruct (marker_payload_proceeds sd st (clients !! cid) key Hkey Hsd)
    as [Hproceed Hlt].
  rewrite (advance_state_proceeds _ _ _ _ Hproceed).
  rewrite mark_and_move_currentStage, mark_and_move_completedStages. simpl.
  split; [lia|]. apply elem_of_push_if_missing. by right.
Qed.

Lemma advanceFlow_marker_payload_witness :
  let flows := run_ops (take 3 full_conversation) ∅ in
  ∃ st st',
    flows !! "c1" = Some st
    ∧ marker_key (currentStage st) = Some "shown"
    ∧ (advanceFlow 3 flows ∅ "c1" (Some {[ "shown" := JBool true ]})).2 !! "c1"
      = Some st'
    ∧ stage_index (currentStage st') = stage_index (currentStage st) + 1.
Proof.
  destruct (advanceFlow_marker_payload 3 (run_ops (take 3 full_conversation) ∅)
              ∅ "c1" {[ "shown" := JBool true ]}
              (default (initializeFlow 0 ∅ "c1" "s1").1
                 (run_ops (take 3 full_conversation) ∅ !! "c1")) "shown")
    as (st' & Hst' & Hidx & _).
  { vm_compute. reflexivity. }
  { reflexivity. }
  { reflexivity. }
  eexists _, st'. split; [vm_compute; reflexivity|]. split; [reflexivity|].
  split; [exact Hst' | exact Hidx].
Defined.


(** ** What resynchronization does *)

Lemma sync_with_client_currentStage_eq client st :
  currentStage (sync_with_client client st) = currentStage (sync_intake client st).
Proof.
  unfold sync_with_client, sync_appointment, sync_taxpro, sync_checklist.
  by destruct (truthy_opt_str (appointmentId client)),
    (truthy_opt_str (assignedTaxPro client)), (_ || _).
Qed.

Lemma sync_with_client_stageData client st :
  stageData (sync_with_client client st)
  = if has_documents (Some client)
    then <[document_checklist := {[ "generated" := JBool true ]}]> (stageData st)
    else stageData st.
Proof.
  assert (Hintake : stageData (sync_intake client st) = stageData st).
  { unfold sync_intake. destruct (_ && negb _); [|done]. simpl.
    by destruct (_ || _). }
  unfold sync_with_client, sync_appointment, sync_taxpro, sync_checklist,
    has_documents.
  destruct (truthy_opt_str (appointmentId client)),
    (truthy_opt_str (assignedTaxPro client)), (_ || _); simpl;
    by rewrite Hintake.
Qed.

Lemma sync_intake_backfills client st :
  sync_backfills (Some client) st = true →
  currentStage (sync_intake client st) = summary_review
  ∧ welcome ∈ completedStages (sync_intake client st)
  ∧ intake_questions ∈ completedStages (sync_intake client st).
Proof.
  unfold sync_backfills, sync_intake.
  intros [H1 H2]%andb_true_iff. rewrite H1. simpl. rewrite H2. simpl.
  split; [done|]. rewrite !elem_of_push_if_missing. auto.
Qed.

Lemma sync_intake_stays client st :
  sync_backfills (Some client) st = false →
  currentStage (sync_intake client st) = currentStage st.
Proof.
  unfold sync_backfills, sync_intake.
  destruct (_ && negb _); [|done]. simpl. by intros ->.
Qed.

(** [syncFlowWithState] moves the flow in one case only: the client's
    intake is completed, the summary is not confirmed and the flow is at
    [welcome] or [intake_questions]; it then puts the flow at
    [summary_review] with both intake stages completed. In every other
    case -- whatever tax professional or appointment the client has -- the
    stage stays as it was. *)
Theorem syncFlowWithState_stage now flows clients cid sid :
  let st0 := sync_start now flows cid sid in
  let st' := (syncFlowWithState now flows clients cid sid).1 in
  (sync_backfills (clients !! cid) st0 = true →
   currentStage st' = summary_review
   ∧ welcome ∈ completedStages st'
   ∧ intake_questions ∈ completedStages st')
  ∧ (sync_backfills (clients !! cid) st0 = false →
     currentStage st' = currentStage st0).
Proof.
  intros st0 st'. unfold st'. rewrite syncFlowWithState_result. simpl.
  fold st0. destruct (clients !! cid) as [c|]; [|split; [discriminate|done]].
  rewrite sync_with_client_currentStage_eq. split.
  - intros (Hs & Hw & Hi)%sync_intake_backfills. split; [done|].
    destruct (keeps_progress_sync_with_client c st0) as (_ & _ & _ & _ & Hpre & _).
    assert (Hsub : ∀ s, s ∈ completedStages (sync_intake c st0) →
                        s ∈ completedStages (sync_with_client c st0)).
    { intros s Hin. unfold sync_with_client, sync_appointment, sync_taxpro,
        sync_checklist.
      destruct (truthy_opt_str (appointmentId c)),
        (truthy_opt_str (assignedTaxPro c)), (_ || _); simpl;
        rewrite ?elem_of_push_if_missing; auto. }
    split; by apply Hsub.
  - apply sync_intake_stays.
Qed.

Lemma syncFlowWithState_stage_witness :
  let flows := run_ops (take 2 full_conversation) ∅ in
  let st' := (syncFlowWithState 5 flows db_intake_done "c1" "s1").1 in
  currentStage <$> flows !! "c1" = Some intake_questions
  ∧ currentStage st' = summary_review
  ∧ welcome ∈ completedStages st'
  ∧ intake_questions ∈ completedStages st'.
Proof.
  split; [vm_compute; reflexivity|].
  apply (syncFlowWithState_stage 5 (run_ops (take 2 full_conversation) ∅)
           db_intake_done "c1" "s1").
  vm_compute. reflexivity.
Defined.

(** When the client has a collected or pending document,
    [syncFlowWithState] replaces the stage data of [document_checklist] by
    [{generated: true}] -- keys recorded there before are dropped -- and
    the check of that stage then holds; otherwise the stage data is left
    as it was. *)
Theorem syncFlowWithState_checklist now flows clients cid sid :
  let st0 := sync_start now flows cid sid in
  let st' := (syncFlowWithState now flows clients cid sid).1 in
  stageData st'
  = (if has_documents (clients !! cid)
     then <[document_checklist := {[ "generated" := JBool true ]}]> (stageData st0)
     else stageData st0)
  ∧ (has_documents (clients !! cid) = true →
     ∀ client, canProceed (completionCheck document_checklist st' client) = true).
Proof.
  intros st0 st'.
  assert (Hdata : stageData st'
            = if has_documents (clients !! cid)
              then <[document_checklist := {[ "generated" := JBool true ]}]>
                     (stageData st0)
              else stageData st0).
  { unfold st'. rewrite syncFlowWithState_result. simpl. fold st0.
    destruct (clients !! cid) as [c|]; [|done].
    apply sync_with_client_stageData. }
  split; [exact Hdata|]. intros Hdocs client. simpl. unfold stage_field.
  rewrite Hdata, Hdocs, lookup_insert_eq. reflexivity.
Qed.

Lemma syncFlowWithState_checklist_witness :
  let flows : gmap string ConversationFlowState :=
    {[ "c1" :=
         set_stageData
           {[ document_checklist :=
                <["generated" := JBool true]> {[ "documentCount" := JNum 4 ]} ]}
           (initializeFlow 0 ∅ "c1" "s1").1 ]} in
  let st' := (syncFlowWithState 5 flows db_documents_pending "c1" "s1").1 in
  has_documents (db_documents_pending !! "c1") = true
  ∧ stageData st' !! document_checklist = Some {[ "generated" := JBool true ]}
  ∧ canProceed (completionCheck document_checklist st' None) = true.
Proof.
  cbv zeta. split; [vm_compute; reflexivity|].
  destruct (syncFlowWithState_checklist 5
              {[ "c1" :=
                   set_stageData
                     {[ document_checklist :=
                          <["generated" := JBool true]>
                            {[ "documentCount" := JNum 4 ]} ]}
                     (initializeFlow 0 ∅ "c1" "s1").1 ]}
              db_documents_pending "c1" "s1") as [Hdata Hcheck].
  cbv zeta in Hdata, Hcheck. split.
  - rewrite Hdata. vm_compute. reflexivity.
  - apply Hcheck. vm_compute. reflexivity.
Defined.

(** ** The progress display *)

Lemma display_markers_lookup st i stage :
  FLOW_SEQUENCE !! i = Some stage →
  display_markers st !! i
  = Some (stage_marker st (stage_index (currentStage st)) i stage).
Proof.
  intros H. unfold display_markers. rewrite list_lookup_imap, H. reflexivity.
Qed.

Lemma count_markers_other (b : bool) markers :
  count_markers marker_current
    ((if b then marker_completed else marker_pending) :: markers)
  = count_markers marker_current markers.
Proof. by destruct b. Qed.

Lemma count_markers_current (b : bool) markers :
  count_markers marker_current
    ((if b then marker_completed else marker_current) :: markers)
  = ((if b then 0 else 1) + count_markers marker_current markers)%nat.
Proof. by destruct b. Qed.

Lemma imap_append {A} (f g : nat → A → string) (l : list A) :
  imap (λ i x, f i x +:+ g i x) l = zip_with String.append (imap f l) (imap g l).
Proof.
  revert f g. induction l as [|x l IH]; intros f g; simpl; [done|].
  f_equal. apply IH.
Qed.

(** The text that [getFlowProgressDisplay] returns for a stored flow is
    the display built from the markers of its ten stages. *)
Lemma getFlowProgressDisplay_text flows cid st :
  flows !! cid = Some st →
  getFlowProgressDisplay flows cid
  = display_text (display_markers st) (10 * (stage_index (currentStage st) + 1)).
Proof.
  intros H. unfold getFlowProgressDisplay. rewrite H. cbv zeta.
  unfold display_text, display_markers.
  rewrite <- (imap_append _ stage_lines FLOW_SEQUENCE).
  rewrite indexOf_FLOW_SEQUENCE.
  replace (round_percent (stage_index (currentStage st) + 1)
             (Z.of_nat (length FLOW_SEQUENCE)))
    with (10 * (stage_index (currentStage st) + 1)); [reflexivity|].
  pose proof (stage_index_range (currentStage st)).
  unfold round_percent. change (Z.of_nat (length FLOW_SEQUENCE)) with 10.
  apply Z.div_unique with (r := 10); lia.
Qed.

Lemma display_markers_length st : length (display_markers st) = 10%nat.
Proof. unfold display_markers. by rewrite length_imap. Qed.

Lemma display_markers_completed st i stage :
  FLOW_SEQUENCE !! i = Some stage →
  display_markers st !! i = Some marker_completed ↔ stage ∈ completedStages st.
Proof.
  intros Hi. rewrite (display_markers_lookup st i stage Hi).
  unfold stage_marker, includes. case_bool_decide as Hin.
  - done.
  - split; [|done]. by destruct (Z.eqb _ _).
Qed.

Lemma display_markers_current st :
  count_markers marker_current (display_markers st)
  = (if includes (completedStages st) (currentStage st) then 0 else 1)%nat.
Proof.
  unfold display_markers. rewrite indexOf_FLOW_SEQUENCE, stage_index_nat.
  destruct st as [? ? cur completed ? ? ? ? ? ?].
  destruct cur;
    cbn -[includes marker_completed marker_current marker_pending count_markers];
    unfold stage_marker;
    cbn -[includes marker_completed marker_current marker_pending count_markers];
    rewrite ?count_markers_other, count_markers_current, ?count_markers_other;
    unfold count_markers; simpl; lia.
Qed.

(** [getFlowProgressDisplay] returns a fixed message for a client without
    a flow. For a stored flow it returns the heading, the ten stages each
    behind its marker, and ten times the position of the current stage as
    percentage; a stage carries the completed marker exactly when it is
    among the completed stages, and the current marker appears once --
    unless the current stage is itself among the completed stages, in
    which case no stage is shown as current. *)
Theorem getFlowProgressDisplay_markers flows cid :
  match flows !! cid with
  | None => getFlowProgressDisplay flows cid = "No active conversation flow found."
  | Some st =>
      getFlowProgressDisplay flows cid
      = display_text (display_markers st)
          (10 * (stage_index (currentStage st) + 1))
      ∧ length (display_markers st) = 10%nat
      ∧ (∀ i stage, FLOW_SEQUENCE !! i = Some stage →
           (display_markers st !! i = Some marker_completed
            ↔ stage ∈ completedStages st))
      ∧ count_markers marker_current (display_markers st)
        = (if includes (completedStages st) (currentStage st) then 0 else 1)%nat
  end.
Proof.
  destruct (flows !! cid) as [st|] eqn:Hst.
  - split_and!.
    + by apply getFlowProgressDisplay_text.
    + apply display_markers_length.
    + apply display_markers_completed.
    + apply display_markers_current.
  - unfold getFlowProgressDisplay. by rewrite Hst.
Qed.

(** The flow where an appointment was booked before the intake was over:
    the display shows the appointment stage as completed, and one stage
    as the current one. *)
Example getFlowProgressDisplay_early_appointment :
  ∃ st,
    run_ops early_appointment_sync ∅ !! "c1" = Some st
    ∧ getFlowProgressDisplay (run_ops early_appointment_sync ∅) "c1"
      = display_text (display_markers st)
          (10 * (stage_index (currentStage st) + 1))
    ∧ display_markers st !! 7%nat = Some marker_completed
    ∧ count_markers marker_current (display_markers st) = 1%nat.
Proof.
  eexists. split; [vm_compute; reflexivity|].
  split; [apply getFlowProgressDisplay_text; vm_compute; reflexivity|].
  split.
  - apply (display_markers_completed _ 7%nat appointment_scheduling);
      [reflexivity|]. by left.
  - rewrite display_markers_current. reflexivity.
Qed.

(** In the text that [getFlowProgressDisplay] returns for a reachable
    flow, every stage before the current one stands behind the completed
    marker. *)
Theorem getFlowProgressDisplay_reachable flows cid st :
  reachable flows →
  flows !! cid = Some st →
  getFlowProgressDisplay flows cid
  = display_text (display_markers st) (10 * (stage_index (currentStage st) + 1))
  ∧ ∀ i stage,
      FLOW_SEQUENCE !! i = Some stage →
      stage_index stage < stage_index (currentStage st) →
      display_markers st !! i = Some marker_completed.
Proof.
  intros Hreach Hst.
  split; [by apply getFlowProgressDisplay_text|].
  intros i stage Hi Hlt.
  destruct (registry_inv_reachable flows Hreach cid st Hst) as (_ & Hpre & _).
  apply (display_markers_completed st i stage Hi). by apply Hpre.
Qed.

Lemma getFlowProgressDisplay_reachable_witness :
  let flows := run_ops (take 4 full_conversation) ∅ in
  ∃ st,
    flows !! "c1" = Some st
    ∧ getFlowProgressDisplay flows "c1" = display_text (display_markers st) 40
    ∧ display_markers st !! 2%nat = Some marker_completed.
Proof.
  destruct (getFlowProgressDisplay_reachable
              (run_ops (take 4 full_conversation) ∅) "c1"
              (default (initializeFlow 0 ∅ "c1" "s1").1
                 (run_ops (take 4 full_conversation) ∅ !! "c1")))
    as (Htext & Hdone).
  - apply reachable_run_ops, reachable_empty.
  - vm_compute. reflexivity.
  - eexists. split; [vm_compute; reflexivity|]. split; [exact Htext|].
    apply (Hdone 2%nat summary_review); [reflexivity|].
    vm_compute. reflexivity.
Defined.

(** ** The flow part of two tool handlers *)

(** The [get_client_summary] tool moves a flow that is at
    [summary_review] to [summary_confirmation]; at any other stage, and
    for a client without a flow, it leaves the registry as it is. *)
Theorem tool_get_client_summary_effect now flows clients cid :
  let result := tool_get_client_summary now flows clients cid in
  match flows !! cid with
  | Some st =>
      if bool_decide (currentStage st = summary_review)
      then ∃ st', result !! cid = Some st'
                  ∧ currentStage st' = summary_confirmation
                  ∧ summary_review ∈ completedStages st'
      else result = flows
  | None => result = flows
  end.
Proof.
  unfold tool_get_client_summary, getFlowState.
  destruct (flows !! cid) as [st|] eqn:Hst; simpl; [|done].
  case_bool_decide as Hcur; [|done].
  rewrite (advanceFlow_registry _ _ _ _ _ st Hst), lookup_insert_eq.
  eexists. split; [reflexivity|].
  destruct (marker_payload_proceeds {[ "shown" := JBool true ]} st
              (clients !! cid) "shown") as [Hproceed _].
  { by rewrite Hcur. }
  { apply lookup_singleton_eq. }
  rewrite (advance_state_proceeds _ _ _ _ Hproceed).
  destruct (mark_and_move_next now
              (store_stage_data (Some {[ "shown" := JBool true ]}) st)
              summary_confirmation) as [Hnext Hin].
  { rewrite store_stage_data_currentStage. by rewrite Hcur. }
  rewrite store_stage_data_currentStage, Hcur in Hin. by split.
Qed.

(** The two [advanceFlow] calls of the [create_appointment] tool move the
    flow by at most two stages. They take it to [complete] when it is at
    [appointment_scheduling] and the client has the appointment; a flow
    that is before [appointment_scheduling] when the tool is called is
    not at [complete] afterwards. *)
Theorem tool_create_appointment_effect
    now1 now2 flows clients cid appointment_id reminderCount st :
  flows !! cid = Some st →
  ∃ st',
    tool_create_appointment now1 now2 flows clients cid appointment_id
      reminderCount !! cid = Some st'
    ∧ stage_index (currentStage st) ≤ stage_index (currentStage st')
    ∧ stage_index (currentStage st') ≤ stage_index (currentStage st) + 2
    ∧ (currentStage st = appointment_scheduling →
       has_appointment clients cid →
       currentStage st' = complete)
    ∧ (stage_index (currentStage st) < stage_index appointment_scheduling →
       currentStage st' ≠ complete).
Proof.
  intros H. unfold tool_create_appointment.
  set (sd1 := <["created" := JBool true]> {[ "appointmentId" := JStr appointment_id ]}).
  set (sd2 := <["created" := JBool true]> {[ "reminderCount" := JNum reminderCount ]}).
  set (s1 := advance_state now1 (clients !! cid) (Some sd1) st).
  assert (H1 : (advanceFlow now1 flows clients cid (Some sd1)).2 !! cid = Some s1).
  { rewrite (advanceFlow_registry _ _ _ _ _ st H). apply lookup_insert_eq. }
  rewrite (advanceFlow_registry _ _ _ _ _ s1 H1), lookup_insert_eq.
  set (s2 := advance_state now2 (clients !! cid) (Some sd2) s1).
  exists s2. split; [done|].
  pose proof (advance_state_currentStage now1 (clients !! cid) (Some sd1) st) as B1.
  pose proof (advance_state_currentStage now2 (clients !! cid) (Some sd2) s1) as B2.
  fold s1 in B1. fold s1 s2 in B2.
  split; [lia|]. split; [lia|]. split.
  - intros Hcur (c & Hc & Happt).
    assert (Hs1 : currentStage s1 = reminders_setup).
    { unfold s1. rewrite advance_state_proceeds.
      - apply stage_index_inj. rewrite mark_and_move_currentStage. simpl.
        by rewrite Hcur.
      - rewrite Hcur, Hc. simpl. by apply bool_decide_eq_true_2. }
    destruct (marker_payload_proceeds sd2 s1 (clients !! cid) "created")
      as [Hproceed _].
    { by rewrite Hs1. }
    { apply lookup_insert_eq. }
    unfold s2. rewrite (advance_state_proceeds _ _ _ _ Hproceed).
    apply stage_index_inj. rewrite mark_and_move_currentStage. simpl.
    by rewrite Hs1.
  - intros Hlt Hc. rewrite Hc in B2.
    change (stage_index appointment_scheduling) with 7 in Hlt.
    change (stage_index complete) with 9 in B2. lia.
Qed.

Lemma tool_create_appointment_effect_witness :
  let flows := run_ops (take 8 full_conversation) ∅ in
  ∃ st st',
    flows !! "c1" = Some st
    ∧ currentStage st = appointment_scheduling
    ∧ has_appointment db_appointment_booked "c1"
    ∧ tool_create_appointment 8 9 flows db_appointment_booked "c1" "apt-1" 2
        !! "c1" = Some st'
    ∧ currentStage st' = complete.
Proof.
  assert (Happt : has_appointment db_appointment_booked "c1").
  { eexists. split; [vm_compute; reflexivity | discriminate]. }
  destruct (tool_create_appointment_effect 8 9
              (run_ops (take 8 full_conversation) ∅) db_appointment_booked
              "c1" "apt-1" 2
              (default (initializeFlow 0 ∅ "c1" "s1").1
                 (run_ops (take 8 full_conversation) ∅ !! "c1")))
    as (st' & Hst' & _ & _ & Hdone & _).
  { vm_compute. reflexivity. }
  eexists _, st'. split; [vm_compute; reflexivity|]. split; [reflexivity|].
  split; [exact Happt|]. split; [exact Hst'|].
  apply Hdone; [reflexivity | exact Happt].
Defined.


(** * The database *)

(** ** Maps in insertion order *)

Lemma map_get_set_eq {V} k (v : V) m : map_get k (map_set k v m) = Some v.
Proof.
  induction m as [|[k' v'] m IH]; simpl.
  - by rewrite String.eqb_refl.
  - destruct (String.eqb k' k) eqn:Hk; simpl.
    + by rewrite String.eqb_refl.
    + by rewrite Hk.
Qed.

Lemma map_get_set_ne {V} k k' (v : V) m :
  k ≠ k' → map_get k' (map_set k v m) = map_get k' m.
Proof.
  intros Hne. induction m as [|[k0 v0] m IH]; simpl.
  - by rewrite (proj2 (String.eqb_neq k k')).
  - destruct (String.eqb k0 k) eqn:Hk; simpl.
    + apply String.eqb_eq in Hk as ->.
      by rewrite !(proj2 (String.eqb_neq k k')).
    + destruct (String.eqb k0 k'); [done | exact IH].
Qed.

Lemma map_get_Some_elem {V} k (v : V) m : map_get k m = Some v → (k, v) ∈ m.
Proof.
  induction m as [|[k' v'] m IH]; simpl; [done|].
  destruct (String.eqb k' k) eqn:Hk.
  - apply String.eqb_eq in Hk as ->. intros [= ->]. by left.
  - intros H. right. by apply IH.
Qed.

Lemma map_get_None_keys {V} k (m : list (string * V)) :
  map_get k m = None ↔ k ∉ map fst m.
Proof.
  induction m as [|[k' v'] m IH]; simpl.
  - split; [intros _; apply not_elem_of_nil | done].
  - rewrite not_elem_of_cons. destruct (String.eqb k' k) eqn:Hk.
    + apply String.eqb_eq in Hk as ->. split; [done | by intros [? _]].
    + apply String.eqb_neq in Hk. rewrite IH. split; [by split | by intros [_ ?]].
Qed.

Lemma map_set_keys {V} k (v : V) m :
  map fst (map_set k v m)
  = match map_get k m with
    | Some _ => map fst m
    | None => (map fst m ++ [k])%list
    end.
Proof.
  induction m as [|[k' v'] m IH]; simpl; [done|].
  destruct (String.eqb k' k) eqn:Hk; simpl.
  - apply String.eqb_eq in Hk as ->. done.
  - rewrite IH. by destruct (map_get k m).
Qed.

Lemma unique_keys_map_set {V} k (v : V) m :
  unique_keys m → unique_keys (map_set k v m).
Proof.
  unfold unique_keys. intros Hm. rewrite map_set_keys.
  destruct (map_get k m) eqn:Hget; [done|].
  apply NoDup_app. split_and!; [done | | apply NoDup_singleton].
  intros x Hx ->%list_elem_of_singleton.
  by apply (map_get_None_keys k m).
Qed.

Lemma unique_keys_elem_get {V} k (v : V) m :
  unique_keys m → (k, v) ∈ m → map_get k m = Some v.
Proof.
  unfold unique_keys. induction m as [|[k' v'] m IH]; simpl.
  - by intros _ ?%elem_of_nil.
  - intros [Hnotin Hnd]%NoDup_cons [[= -> ->] | Hin]%elem_of_cons.
    + by rewrite String.eqb_refl.
    + destruct (String.eqb k' k) eqn:Hk; [|by apply IH].
      apply String.eqb_eq in Hk as ->. exfalso. apply Hnotin.
      apply list_elem_of_fmap. by exists (k, v).
Qed.

(** Where the key exists, [set] replaces the value in place. *)
Lemma map_set_existing {V} k (v : V) m :
  unique_keys m →
  is_Some (map_get k m) →
  map_set k v m
  = map (λ e, if String.eqb (fst e) k then (k, v) else e) m.
Proof.
  unfold unique_keys. induction m as [|[k' v'] m IH]; simpl.
  - by intros _ [? ?].
  - intros [Hnotin Hnd]%NoDup_cons Hsome.
    destruct (String.eqb k' k) eqn:Hk.
    + apply String.eqb_eq in Hk as ->. f_equal.
      symmetry. rewrite <- (map_id m) at 2. apply map_ext_in.
      intros [k0 v0] Hin. simpl. destruct (String.eqb k0 k) eqn:Hk0; [|done].
      apply String.eqb_eq in Hk0 as ->. exfalso. apply Hnotin.
      apply list_elem_of_fmap. exists (k, v0). split; [done|].
      by apply list_elem_of_In.
    + f_equal. by apply IH.
Qed.

(** ** The roster *)

Lemma initializeTaxPros_fold (pros : list TaxProfessional) m :
  unique_keys m → keyed_by_id m →
  unique_keys (foldl (λ m tp, map_set (tp_id tp) tp m) m pros)
  ∧ keyed_by_id (foldl (λ m tp, map_set (tp_id tp) tp m) m pros).
Proof.
  revert m. induction pros as [|tp pros IH]; intros m Hu Hk; simpl; [done|].
  apply IH.
  - by apply unique_keys_map_set.
  - intros k q Hin.
    destruct (decide (k = tp_id tp)) as [-> | Hne].
    + apply unique_keys_elem_get in Hin; [|by apply unique_keys_map_set].
      rewrite map_get_set_eq in Hin. by injection Hin as <-.
    + apply Hk. apply map_get_Some_elem.
      rewrite <- (map_get_set_ne (tp_id tp) k tp m) by done.
      apply unique_keys_elem_get; [by apply unique_keys_map_set | done].
Qed.

Lemma find_app_first {A} (f : A → bool) (l1 l2 : list A) :
  find f (l1 ++ l2)
  = match find f l1 with Some x => Some x | None => find f l2 end.
Proof.
  induction l1 as [|x l1 IH]; simpl; [done|]. by destruct (f x).
Qed.

Lemma foldl_map_set_get (pros : list TaxProfessional) m id :
  map_get id (foldl (λ m tp, map_set (tp_id tp) tp m) m pros)
  = match find (λ tp, String.eqb (tp_id tp) id) (reverse pros) with
    | Some tp => Some tp
    | None => map_get id m
    end.
Proof.
  revert m. induction pros as [|tp pros IH]; intros m; simpl; [done|].
  rewrite IH, reverse_cons, find_app_first.
  destruct (find _ (reverse pros)); [done|]. simpl.
  destruct (String.eqb (tp_id tp) id) eqn:Hid.
  - apply String.eqb_eq in Hid as <-. apply map_get_set_eq.
  - apply String.eqb_neq in Hid. by apply map_get_set_ne.
Qed.

Lemma store_all_wf pros : unique_keys (store_all pros) ∧ keyed_by_id (store_all pros).
Proof.
  unfold store_all. apply initializeTaxPros_fold.
  - constructor.
  - by intros k tp ?%elem_of_nil.
Qed.

(** The roster that the database starts with has one entry per id, each
    professional stored under its own id, and looking an id up gives the
    last professional with that id in the list that was stored: the five
    hard-coded ones or, in the variant with the CSV loader, the loaded
    ones, and two hard-coded ones exactly when nothing was loaded. *)
Theorem initializeTaxPros_roster loaded :
  let source := if decide (loaded = []) then csvFallbackPros else loaded in
  unique_keys (initializeTaxProsFromCSV loaded)
  ∧ keyed_by_id (initializeTaxProsFromCSV loaded)
  ∧ (∀ id, getTaxPro (initializeTaxProsFromCSV loaded) id
           = find (λ tp, String.eqb (tp_id tp) id) (reverse source))
  ∧ getAllTaxPros (initializeTaxProsFromCSV []) = csvFallbackPros
  ∧ unique_keys initializeTaxPros
  ∧ keyed_by_id initializeTaxPros
  ∧ getAllTaxPros initializeTaxPros = fallbackPros.
Proof.
  intros source.
  assert (Hsrc : initializeTaxProsFromCSV loaded = store_all source).
  { unfold source. by destruct loaded. }
  rewrite Hsrc.
  destruct (store_all_wf source) as [Hu Hk].
  destruct (store_all_wf fallbackPros) as [Hu5 Hk5].
  split_and!; try done; try by vm_compute.
  intros id. unfold store_all, getTaxPro.
  rewrite foldl_map_set_get. by destruct (find _ _).
Qed.

Lemma isSafeInteger_spec n :
  isSafeInteger n = true ↔ - (2 ^ 53) < n < 2 ^ 53.
Proof.
  unfold isSafeInteger, MAX_SAFE_INTEGER.
  rewrite andb_true_iff, !Z.leb_le. lia.
Qed.

Lemma round_to_number_safe n : isSafeInteger n = true → round_to_number n = n.
Proof.
  intros H%isSafeInteger_spec. unfold round_to_number.
  destruct (Z.ltb_spec (Z.abs n) (2 ^ 53)); [done|lia].
Qed.

Lemma number_add_safe a b : safe_addition a b → number_add a b = a + b.
Proof. intros (_ & _ & H). by apply round_to_number_safe. Qed.

(** Beyond the safe range the sum of two numbers is not always the sum
    of the integers they hold. *)
Example number_add_rounds :
  number_add 3 (2 ^ 53) = 2 ^ 53 + 4
  ∧ number_add (number_add 3 (2 ^ 53)) (- 2 ^ 53) = 4
  ∧ number_add 1 (2 ^ 53) = 2 ^ 53.
Proof. vm_compute. done. Qed.

Lemma updateTaxProLoad_lookup roster id change :
  let result := updateTaxProLoad roster id change in
  match getTaxPro roster id with
  | None => result = (None, roster)
  | Some tp =>
      result.1
      = Some (set_currentLoad (Z.max 0 (number_add (currentLoad tp) change)) tp)
      ∧ getTaxPro result.2 id = result.1
      ∧ (∀ other, other ≠ id → getTaxPro result.2 other = getTaxPro roster other)
      ∧ map fst result.2 = map fst roster
  end.
Proof.
  unfold updateTaxProLoad, getTaxPro.
  destruct (map_get id roster) as [tp|] eqn:Hget; simpl; [|done].
  split_and!.
  - done.
  - apply map_get_set_eq.
  - intros other Hne. by apply map_get_set_ne.
  - by rewrite map_set_keys, Hget.
Qed.

(** [updateTaxProLoad] returns undefined and changes nothing for an id
    that is not in the roster. For one that is, with a load and a change
    whose sum stays within the safe integers, the stored load becomes the
    old load plus the change, but never less than zero; the other
    professionals and the order of the roster are untouched. *)
Theorem updateTaxProLoad_effect roster id change :
  let result := updateTaxProLoad roster id change in
  match getTaxPro roster id with
  | None => result = (None, roster)
  | Some tp =>
      safe_addition (currentLoad tp) change →
      ∃ tp',
        result.1 = Some tp'
        ∧ getTaxPro result.2 id = Some tp'
        ∧ currentLoad tp' = Z.max 0 (currentLoad tp + change)
        ∧ 0 ≤ currentLoad tp'
        ∧ isSafeInteger (currentLoad tp') = true
        ∧ tp_id tp' = tp_id tp
        ∧ tp_name tp' = tp_name tp
        ∧ tp_email tp' = tp_email tp
        ∧ specializations tp' = specializations tp
        ∧ maxComplexity tp' = maxComplexity tp
        ∧ maxDailyAppointments tp' = maxDailyAppointments tp
        ∧ available tp' = available tp
        ∧ rating tp' = rating tp
        ∧ (∀ other, other ≠ id →
             getTaxPro result.2 other = getTaxPro roster other)
        ∧ map fst result.2 = map fst roster
  end.
Proof.
  intros result.
  pose proof (updateTaxProLoad_lookup roster id change) as H.
  simpl in H. fold result in H.
  destruct (getTaxPro roster id) as [tp|]; [|done].
  intros Hsafe.
  destruct H as (H1 & H2 & H3 & H4).
  rewrite (number_add_safe _ _ Hsafe) in H1.
  eexists. split; [exact H1|]. rewrite H2, H1.
  destruct Hsafe as (_ & _ & Hsum%isSafeInteger_spec).
  split_and!; try done; simpl; [lia|].
  apply isSafeInteger_spec. lia.
Qed.

(** A load cannot be pushed below zero. *)
Example updateTaxProLoad_clamps :
  currentLoad <$> (updateTaxProLoad initializeTaxPros "tp-005" (-3)).1
  = Some 0.
Proof. vm_compute. reflexivity. Qed.

Lemma elem_of_getAvailableTaxPros_iff tp taxPros :
  tp ∈ getAvailableTaxPros taxPros
  ↔ tp ∈ taxPros ∧ available tp = true
    ∧ currentLoad tp < maxDailyAppointments tp.
Proof.
  unfold getAvailableTaxPros.
  rewrite !list_elem_of_In, filter_In, andb_true_iff, Z.ltb_lt. tauto.
Qed.

Lemma map_get_values {V} k (v : V) m : map_get k m = Some v → v ∈ map_values m.
Proof.
  intros H%map_get_Some_elem. unfold map_values.
  apply list_elem_of_fmap. by exists (k, v).
Qed.

(** After [updateTaxProLoad] with a load and a change whose sum stays
    within the safe integers, the professional whose load was changed is
    offered by [getAvailableTaxPros] exactly when it is available and its
    new load is below its daily maximum -- so raising the load to the
    maximum takes it out of the offer -- and every other professional of
    the roster is offered exactly when it was before. *)
Theorem updateTaxProLoad_availability roster id change tp :
  unique_keys roster →
  getTaxPro roster id = Some tp →
  safe_addition (currentLoad tp) change →
  let roster' := (updateTaxProLoad roster id change).2 in
  let tp' := set_currentLoad (Z.max 0 (currentLoad tp + change)) tp in
  (updateTaxProLoad roster id change).1 = Some tp'
  ∧ (tp' ∈ storedAvailableTaxPros roster'
     ↔ available tp = true
       ∧ Z.max 0 (currentLoad tp + change) < maxDailyAppointments tp)
  ∧ (∀ other q, other ≠ id → getTaxPro roster other = Some q →
       (q ∈ storedAvailableTaxPros roster' ↔ q ∈ storedAvailableTaxPros roster)).
Proof.
  intros Hu Hget Hsafe roster' tp'.
  pose proof (updateTaxProLoad_lookup roster id change) as H.
  simpl in H. rewrite Hget in H. fold roster' in H.
  rewrite (number_add_safe _ _ Hsafe) in H. fold tp' in H.
  destruct H as (H1 & H2 & H3 & _).
  split; [exact H1|].
  unfold storedAvailableTaxPros. split.
  - rewrite elem_of_getAvailableTaxPros_iff. simpl.
    split; [tauto|]. intros [? ?]. split; [|done].
    apply (map_get_values id). unfold getTaxPro in H2. by rewrite H2, H1.
  - intros other q Hne Hq. rewrite !elem_of_getAvailableTaxPros_iff.
    assert (q ∈ map_values roster) by by apply (map_get_values other).
    assert (q ∈ map_values roster').
    { apply (map_get_values other). unfold getTaxPro in H3. by rewrite H3. }
    tauto.
Qed.

Lemma updateTaxProLoad_availability_witness :
  let roster := initializeTaxPros in
  ∃ tp,
    getTaxPro roster "tp-002" = Some tp
    ∧ tp ∈ storedAvailableTaxPros roster
    ∧ set_currentLoad (Z.max 0 (currentLoad tp + 1)) tp
      ∉ storedAvailableTaxPros (updateTaxProLoad roster "tp-002" 1).2.
Proof.
  eexists. split; [vm_compute; reflexivity|]. split.
  - apply elem_of_getAvailableTaxPros_iff. split; [|by vm_compute].
    apply (map_get_values "tp-002"). vm_compute. reflexivity.
  - intros Hin.
    match type of Hin with
    | set_currentLoad _ ?tp ∈ _ =>
        destruct (updateTaxProLoad_availability initializeTaxPros "tp-002" 1 tp)
          as (_ & Havail & _)
    end.
    + apply store_all_wf.
    + vm_compute. reflexivity.
    + vm_compute. done.
    + apply Havail in Hin as [_ Hlt]. vm_compute in Hlt. discriminate.
Defined.

Lemma map_set_set {V} k (v v' : V) m :
  map_set k v (map_set k v' m) = map_set k v m.
Proof.
  induction m as [|[k0 v0] m IH]; simpl.
  - by rewrite String.eqb_refl.
  - destruct (String.eqb k0 k) eqn:Hk; simpl.
    + by rewrite String.eqb_refl.
    + by rewrite Hk, IH.
Qed.

Lemma map_set_get_id {V} k (v : V) m : map_get k m = Some v → map_set k v m = m.
Proof.
  induction m as [|[k0 v0] m IH]; simpl; [done|].
  destruct (String.eqb k0 k) eqn:Hk.
  - apply String.eqb_eq in Hk as ->. by intros [= ->].
  - intros H. by rewrite IH.
Qed.

(** Raising a load and then lowering it by the same amount restores the
    roster, provided the load was not negative to begin with and the
    raised load is still a safe integer. *)
Theorem updateTaxProLoad_round_trip roster id change tp :
  getTaxPro roster id = Some tp →
  0 ≤ currentLoad tp →
  0 ≤ change →
  isSafeInteger (currentLoad tp + change) = true →
  (updateTaxProLoad (updateTaxProLoad roster id change).2 id (- change)).2
  = roster.
Proof.
  intros Hget Hload Hchange Hsum. unfold getTaxPro in Hget.
  pose proof (proj1 (isSafeInteger_spec _) Hsum) as Hbound.
  unfold updateTaxProLoad at 2. rewrite Hget. simpl.
  unfold updateTaxProLoad. rewrite map_get_set_eq. simpl.
  rewrite map_set_set. apply map_set_get_id. rewrite Hget. f_equal.
  destruct tp as [? ? ? ? ? load ? ? ?]. unfold set_currentLoad. simpl in *.
  f_equal. unfold number_add.
  rewrite (round_to_number_safe (load + change)) by done.
  rewrite round_to_number_safe by (apply isSafeInteger_spec; lia).
  lia.
Qed.

(** Without that bound the round trip can fail: the raised load is
    rounded to a number. *)
Example updateTaxProLoad_round_trip_rounds :
  currentLoad <$> getTaxPro initializeTaxPros "tp-001" = Some 3
  ∧ currentLoad
      <$> getTaxPro
            (updateTaxProLoad
               (updateTaxProLoad initializeTaxPros "tp-001" (2 ^ 53)).2
               "tp-001" (- 2 ^ 53)).2 "tp-001"
    = Some 4.
Proof. split; vm_compute; reflexivity. Qed.

Lemma updateTaxProLoad_round_trip_witness :
  let roster := initializeTaxPros in
  (updateTaxProLoad (updateTaxProLoad roster "tp-001" 2).2 "tp-001" (- 2)).2
  = roster.
Proof.
  eapply (updateTaxProLoad_round_trip initializeTaxPros "tp-001" 2).
  - vm_compute. reflexivity.
  - vm_compute. discriminate.
  - lia.
  - vm_compute. reflexivity.
Defined.

(** In the other order the round trip can fail: lowering first is cut off
    at zero. *)
Example updateTaxProLoad_lower_then_raise :
  currentLoad
    <$> getTaxPro
          (updateTaxProLoad (updateTaxProLoad initializeTaxPros "tp-005" (-3)).2
             "tp-005" 3).2 "tp-005"
  = Some 3
  ∧ currentLoad <$> getTaxPro initializeTaxPros "tp-005" = Some 2.
Proof. split; vm_compute; reflexivity. Qed.

(** ** Reminders *)

Lemma pending_after_replacing now id (r' : Reminder) (m : list (string * Reminder)) :
  is_pending now r' = false →
  List.filter (is_pending now)
    (map snd (map (λ e, if String.eqb (fst e) id then (id, r') else e) m))
  = map snd
      (List.filter (λ e, negb (String.eqb (fst e) id) && is_pending now (snd e)) m).
Proof.
  intros Hr'. induction m as [|[k r] m IH]; simpl; [done|].
  destruct (String.eqb k id); simpl.
  - by rewrite Hr'.
  - destruct (is_pending now r); simpl; by rewrite IH.
Qed.

Lemma pending_without_key now id (m : list (string * Reminder)) :
  map_get id m = None →
  List.filter (is_pending now) (map snd m)
  = map snd
      (List.filter (λ e, negb (String.eqb (fst e) id) && is_pending now (snd e)) m).
Proof.
  induction m as [|[k r] m IH]; simpl; [done|].
  destruct (String.eqb k id); [done|]. simpl. intros H.
  destruct (is_pending now r); simpl; by rewrite IH.
Qed.

(** Once [markReminderSent] was called for an id, the reminders pending
    at any later call of [getPendingReminders] are those that would have
    been pending without it, less the one stored under that id; the call
    returns undefined and changes nothing when no reminder has the id. *)
Theorem markReminderSent_pending now now' reminders id :
  unique_keys reminders →
  let result := markReminderSent now reminders id in
  getPendingReminders now' result.2
  = map snd
      (List.filter
         (λ e, negb (String.eqb (fst e) id) && is_pending now' (snd e))
         reminders)
  ∧ (getReminder reminders id = None → result = (None, reminders))
  ∧ (∀ r, getReminder reminders id = Some r →
       ∃ r', result.1 = Some r' ∧ getReminder result.2 id = Some r'
             ∧ rem_sent r' = true ∧ rem_sentAt r' = Some now
             ∧ rem_scheduledFor r' = rem_scheduledFor r).
Proof.
  intros Hu. unfold markReminderSent, getReminder, getPendingReminders, map_values.
  destruct (map_get id reminders) as [r|] eqn:Hget; simpl.
  - split_and!.
    + rewrite map_set_existing by (done || by rewrite Hget).
      by apply pending_after_replacing.
    + discriminate.
    + intros ? [= <-]. eexists. split; [done|].
      split; [apply map_get_set_eq | done].
  - split_and!; [by apply pending_without_key | done | discriminate].
Qed.

Lemma markReminderSent_pending_witness :
  unique_keys example_reminders
  ∧ rem_id <$> getPendingReminders 250 example_reminders = ["r1"; "r2"]
  ∧ rem_id <$> getPendingReminders 250
                 (markReminderSent 150 example_reminders "r1").2 = ["r2"].
Proof.
  assert (Hu : unique_keys example_reminders).
  { unfold unique_keys.
    change (map fst example_reminders) with ["r1"; "r2"].
    apply NoDup_cons. split; [|apply NoDup_singleton].
    by intros ?%list_elem_of_singleton. }
  split; [exact Hu|]. split; [vm_compute; reflexivity|].
  destruct (markReminderSent_pending 150 250 example_reminders "r1" Hu)
    as (Hpending & _).
  rewrite Hpending. vm_compute. reflexivity.
Defined.

(** * The roster loader *)

Local Open Scope list_scope.

(** [determineMaxComplexity] looks at the upper end of the range only: the
    lower end has no influence, every upper end from 81 on -- above 100
    too -- gives [expert], every one up to 20 -- negative too -- gives
    [simple], and a larger upper end never gives a lower level. *)
Theorem determineMaxComplexity_spec (minLevel minLevel' maxLevel maxLevel' : Z) :
  determineMaxComplexity minLevel maxLevel
  = determineMaxComplexity minLevel' maxLevel
  ∧ (determineMaxComplexity minLevel maxLevel = simple ↔ maxLevel ≤ 20)
  ∧ (determineMaxComplexity minLevel maxLevel = moderate ↔ 21 ≤ maxLevel ≤ 50)
  ∧ (determineMaxComplexity minLevel maxLevel = complex ↔ 51 ≤ maxLevel ≤ 80)
  ∧ (determineMaxComplexity minLevel maxLevel = expert ↔ 81 ≤ maxLevel)
  ∧ (maxLevel ≤ maxLevel' →
     level_ordinal (determineMaxComplexity minLevel maxLevel)
     ≤ level_ordinal (determineMaxComplexity minLevel' maxLevel')).
Proof.
  unfold determineMaxComplexity.
  destruct (Z.leb_spec 81 maxLevel), (Z.leb_spec 51 maxLevel),
    (Z.leb_spec 21 maxLevel), (Z.leb_spec 81 maxLevel'),
    (Z.leb_spec 51 maxLevel'), (Z.leb_spec 21 maxLevel');
    split_and!; try done; try (split; intros; (discriminate || lia || done));
    simpl; lia.
Qed.

(** ** Trimming and splitting *)

Lemma head_trim_start s c :
  head (trim_start s) = Some c → is_js_whitespace c = false.
Proof.
  induction s as [|d s IH]; simpl; [done|].
  destruct (is_js_whitespace d) eqn:Hd; [done|]. simpl. by intros [= <-].
Qed.

Lemma trim_start_id s :
  (∀ c, head s = Some c → is_js_whitespace c = false) → trim_start s = s.
Proof. destruct s as [|c s]; simpl; [done|]. intros H. by rewrite (H c). Qed.

Lemma trim_start_snoc s c :
  is_js_whitespace c = false → trim_start (s ++ [c]) = trim_start s ++ [c].
Proof.
  intros Hc. induction s as [|d s IH]; simpl.
  - by rewrite Hc.
  - by destruct (is_js_whitespace d).
Qed.

Lemma trim_start_subseteq s : trim_start s ⊆ s.
Proof.
  induction s as [|d s IH]; simpl; [done|].
  destruct (is_js_whitespace d); [|done].
  intros x Hx. right. by apply IH.
Qed.

Lemma js_trim_subseteq s : js_trim s ⊆ s.
Proof.
  unfold js_trim, trim_end. intros x Hx.
  apply trim_start_subseteq.
  rewrite elem_of_reverse in Hx. apply trim_start_subseteq in Hx.
  by rewrite elem_of_reverse in Hx.
Qed.

Lemma trimmed_js_trim s : trimmed (js_trim s).
Proof.
  unfold js_trim, trim_end, trimmed. split.
  - destruct (trim_start s) as [|c t] eqn:Ht; [done|].
    assert (Hc : is_js_whitespace c = false).
    { apply (head_trim_start s). by rewrite Ht. }
    rewrite reverse_cons, (trim_start_snoc _ _ Hc), reverse_app. simpl.
    by intros ? [= <-].
  - intros c. rewrite last_reverse. apply head_trim_start.
Qed.

Lemma js_trim_trimmed s : trimmed s → js_trim s = s.
Proof.
  intros [Hhead Hlast]. unfold js_trim, trim_end.
  rewrite (trim_start_id s Hhead).
  rewrite trim_start_id; [apply reverse_involutive|].
  intros c. rewrite head_reverse. apply Hlast.
Qed.

Lemma js_split_length sep s :
  length (js_split sep s) = S (length (List.filter (N.eqb sep) s)).
Proof.
  induction s as [|c s IH]; simpl; [done|].
  rewrite (N.eqb_sym sep c). destruct (N.eqb c sep); simpl.
  - by rewrite IH.
  - destruct (js_split sep s); simpl in *; [lia | done].
Qed.

Lemma js_split_nonempty sep s : js_split sep s ≠ [].
Proof.
  intros H%(f_equal length). rewrite js_split_length in H. discriminate.
Qed.

(** ** Lines *)

Lemma parse_line_from_app vs ws current inQuotes line :
  parse_line_from (vs ++ ws) current inQuotes line
  = vs ++ parse_line_from ws current inQuotes line.
Proof.
  revert ws current inQuotes.
  induction line as [|c line IH]; intros ws current inQuotes; simpl.
  - by rewrite <- (assoc_L (++)).
  - destruct (N.eqb c quote_unit); [apply IH|].
    destruct (N.eqb c comma_unit && negb inQuotes); [|apply IH].
    rewrite <- (assoc_L (++)). apply IH.
Qed.

Lemma parse_line_from_values vs line :
  parse_line_from vs [] false line = vs ++ parse_line line.
Proof.
  unfold parse_line. rewrite <- (parse_line_from_app vs []).
  by rewrite (right_id_L [] (++)).
Qed.

Lemma parse_line_from_unquoted current line :
  quote_unit ∉ line →
  parse_line_from [] current false line
  = map js_trim
      (match js_split comma_unit line with
       | piece :: pieces => (current ++ piece) :: pieces
       | [] => [current]
       end).
Proof.
  revert current. induction line as [|c line IH]; intros current Hq; simpl.
  - by rewrite (right_id_L [] (++)).
  - apply not_elem_of_cons in Hq as [Hc Hq].
    rewrite (proj2 (N.eqb_neq c quote_unit)) by done.
    destruct (N.eqb c comma_unit) eqn:Hcomma; simpl.
    + rewrite (parse_line_from_values [js_trim current]), (right_id_L [] (++)).
      simpl. f_equal. unfold parse_line. rewrite (IH [] Hq).
      destruct (js_split comma_unit line) eqn:Hsplit; [|done].
      by apply js_split_nonempty in Hsplit.
    + rewrite (IH _ Hq).
      destruct (js_split comma_unit line) eqn:Hsplit; simpl;
        [by apply js_split_nonempty in Hsplit|].
      by rewrite <- (assoc_L (++)).
Qed.

(** On a line without quotes the values are the comma-separated pieces,
    each trimmed -- the way the header line is split. *)
Theorem parse_line_unquoted line :
  quote_unit ∉ line →
  parse_line line = map js_trim (js_split comma_unit line).
Proof.
  intros Hq. unfold parse_line. rewrite (parse_line_from_unquoted [] line Hq).
  destruct (js_split comma_unit line) eqn:Hsplit; [|done].
  by apply js_split_nonempty in Hsplit.
Qed.

Lemma parse_line_unquoted_witness :
  (quote_unit ∉ units " x , y ")
  ∧ parse_line (units " x , y ") = [units "x"; units "y"].
Proof.
  assert (Hq : quote_unit ∉ units " x , y ").
  { apply (bool_decide_unpack _). by vm_compute. }
  split; [exact Hq|].
  rewrite (parse_line_unquoted (units " x , y ") Hq). vm_compute. reflexivity.
Defined.

Lemma parse_line_from_comma vs current a rest :
  quote_unit ∉ a →
  parse_line_from vs current false (a ++ comma_unit :: rest)
  = parse_line_from (parse_line_from vs current false a) [] false rest.
Proof.
  revert vs current. induction a as [|c a IH]; intros vs current Hq; simpl.
  - done.
  - apply not_elem_of_cons in Hq as [Hc Hq].
    rewrite (proj2 (N.eqb_neq c quote_unit)) by done.
    destruct (N.eqb c comma_unit); simpl; by apply IH.
Qed.

Lemma parse_line_from_quoted vs current q rest :
  quote_unit ∉ q →
  parse_line_from vs current true (q ++ quote_unit :: rest)
  = parse_line_from vs (current ++ q) false rest.
Proof.
  revert current. induction q as [|c q IH]; intros current Hq; simpl.
  - by rewrite (right_id_L [] (++)).
  - apply not_elem_of_cons in Hq as [Hc Hq].
    rewrite (proj2 (N.eqb_neq c quote_unit)) by done.
    rewrite andb_false_r, (IH _ Hq). by rewrite <- (assoc_L (++)).
Qed.

(** A field written between quotes gives one value, whatever commas it
    contains, and the quotes are not part of the value: for a line made
    of a part [a], a comma, the quoted text [q], a comma and a part [b],
    the values are those of [a], then [q] trimmed, then those of [b]. *)
Theorem parse_line_quoted_field a q b :
  quote_unit ∉ a → quote_unit ∉ q →
  parse_line
    (a ++ comma_unit :: quote_unit :: q ++ quote_unit :: comma_unit :: b)
  = parse_line a ++ [js_trim q] ++ parse_line b.
Proof.
  intros Ha Hq. unfold parse_line at 1.
  rewrite (parse_line_from_comma [] [] a _ Ha). fold (parse_line a).
  simpl. rewrite (parse_line_from_quoted _ [] q _ Hq). simpl.
  rewrite (parse_line_from_app (parse_line a) [js_trim q]).
  by rewrite (parse_line_from_values [js_trim q]).
Qed.

Lemma parse_line_quoted_field_witness :
  parse_line
    (units "TP1" ++ comma_unit :: quote_unit :: units "Individual Returns, Cryptocurrency"
     ++ quote_unit :: comma_unit :: units "TRUE")
  = [units "TP1"; units "Individual Returns, Cryptocurrency"; units "TRUE"].
Proof.
  rewrite (parse_line_quoted_field (units "TP1")
             (units "Individual Returns, Cryptocurrency") (units "TRUE")).
  - vm_compute. reflexivity.
  - apply (bool_decide_unpack _). by vm_compute.
  - apply (bool_decide_unpack _). by vm_compute.
Defined.

(** ** Rows *)

Lemma parse_line_from_values_ok vs current inQuotes line :
  Forall (λ v, trimmed v ∧ quote_unit ∉ v) vs →
  quote_unit ∉ current →
  Forall (λ v, trimmed v ∧ quote_unit ∉ v)
    (parse_line_from vs current inQuotes line).
Proof.
  assert (Hpush : ∀ vs current,
            Forall (λ v, trimmed v ∧ quote_unit ∉ v) vs →
            quote_unit ∉ current →
            Forall (λ v, trimmed v ∧ quote_unit ∉ v) (vs ++ [js_trim current])).
  { intros ws cur Hws Hcur. apply Forall_app. split; [done|].
    apply Forall_singleton. split; [apply trimmed_js_trim|].
    intros Hin. by apply Hcur, js_trim_subseteq. }
  revert vs current inQuotes.
  induction line as [|c line IH]; intros vs current inQuotes Hvs Hcur; simpl.
  - by apply Hpush.
  - destruct (N.eqb c quote_unit) eqn:Hc; [by apply IH|].
    apply N.eqb_neq in Hc.
    destruct (N.eqb c comma_unit && negb inQuotes).
    + apply IH; [by apply Hpush | apply not_elem_of_nil].
    + apply IH; [done|]. rewrite elem_of_app, list_elem_of_singleton.
      intros [? | ?]; [done | by apply Hc].
Qed.

Lemma parse_line_values_ok line :
  Forall (λ v, trimmed v ∧ quote_unit ∉ v) (parse_line line).
Proof.
  apply parse_line_from_values_ok; [constructor | apply not_elem_of_nil].
Qed.

Lemma build_row_fold_lookup (P : list N → list N → Prop)
    (entries : list (nat * list N)) (values : list (list N))
    (row : gmap (list N) (list N)) :
  (∀ k v, row !! k = Some v → P k v) →
  (∀ i h, (i, h) ∈ entries → h ≠ proto_key → P h (default [] (values !! i))) →
  ∀ k v,
    foldl (λ row entry,
             if decide (entry.2 = proto_key) then row
             else <[entry.2 := default [] (values !! entry.1)]> row)
      row entries !! k = Some v →
    P k v.
Proof.
  revert row. induction entries as [|[i h] entries IH]; intros row Hrow Hent;
    simpl; [done|].
  apply IH.
  - destruct (decide (h = proto_key)) as [Hp|Hp]; [done|].
    intros k v. destruct (decide (h = k)) as [<- | Hne].
    + rewrite lookup_insert_eq. intros [= <-]. apply (Hent i h); [by left | done].
    + rewrite lookup_insert_ne by done. apply Hrow.
  - intros j g Hin. apply Hent. by right.
Qed.

Lemma build_row_fold_present
    (entries : list (nat * list N)) (values : list (list N))
    (row : gmap (list N) (list N)) h :
  h ≠ proto_key →
  h ∈ map snd entries ∨ is_Some (row !! h) →
  is_Some
    (foldl (λ row entry,
              if decide (entry.2 = proto_key) then row
              else <[entry.2 := default [] (values !! entry.1)]> row)
       row entries !! h).
Proof.
  intros Hp. revert row.
  induction entries as [|[i g] entries IH]; intros row; simpl.
  - by intros [?%elem_of_nil | ?].
  - intros [[<- | Hin]%elem_of_cons | Hsome]; apply IH.
    + right. rewrite decide_False by done. rewrite lookup_insert_eq. by eexists.
    + by left.
    + right. destruct (decide (g = proto_key)); [done|].
      destruct (decide (g = h)) as [<- | Hne].
      * rewrite lookup_insert_eq. by eexists.
      * by rewrite lookup_insert_ne.
Qed.

Lemma elem_of_imap_pair {A} (l : list A) i x :
  (i, x) ∈ imap pair l ↔ l !! i = Some x.
Proof.
  rewrite list_elem_of_lookup. split.
  - intros [j Hj]. rewrite list_lookup_imap in Hj.
    destruct (l !! j) eqn:Hl; simpl in Hj; [|done]. by injection Hj as <- <-.
  - intros Hl. exists i. by rewrite list_lookup_imap, Hl.
Qed.

Lemma build_row_lookup headers values k v :
  build_row headers values !! k = Some v →
  k ∈ headers ∧ k ≠ proto_key ∧ (v ∈ values ∨ v = []).
Proof.
  unfold build_row.
  apply (build_row_fold_lookup
           (λ k v, k ∈ headers ∧ k ≠ proto_key ∧ (v ∈ values ∨ v = []))).
  - intros ? ?. by rewrite lookup_empty.
  - intros i h Hin%elem_of_imap_pair Hp. split_and!; [|done|].
    + by eapply list_elem_of_lookup_2.
    + destruct (values !! i) as [w|] eqn:Hw; simpl; [left | by right].
      by eapply list_elem_of_lookup_2.
Qed.

Lemma build_row_present headers values h :
  h ∈ headers → h ≠ proto_key → is_Some (build_row headers values !! h).
Proof.
  intros Hin Hp. unfold build_row. apply build_row_fold_present; [done|].
  left. apply list_elem_of_lookup in Hin as [i Hi].
  apply list_elem_of_fmap. exists (i, h). split; [done|].
  by apply elem_of_imap_pair.
Qed.

Lemma parseCSV_unfold content :
  parseCSV content
  = match js_split line_feed_unit (js_trim content) with
    | _ :: [] | [] => []
    | _ :: rest =>
        map (λ line, build_row (csv_headers content) (parse_line line)) rest
    end.
Proof.
  unfold parseCSV, csv_headers.
  by destruct (js_split line_feed_unit (js_trim content)) as [|h [|l rest]].
Qed.

(** [parseCSV] returns one row for every line feed that the text has once
    it is trimmed: none for an empty text or a header line alone, and one
    for each line after the header, blank lines included. *)
Theorem parseCSV_length content :
  length (parseCSV content)
  = length (List.filter (N.eqb line_feed_unit) (js_trim content)).
Proof.
  rewrite parseCSV_unfold.
  pose proof (js_split_length line_feed_unit (js_trim content)) as Hlen.
  destruct (js_split line_feed_unit (js_trim content)) as [|h [|l rest]];
    simpl in *; try lia.
  rewrite length_map. lia.
Qed.

(** In every row that [parseCSV] returns, the keys are headers of the
    file, trimmed, and every header other than [__proto__] is a key; the
    values are trimmed and contain no quote. *)
Theorem parseCSV_rows content row :
  row ∈ parseCSV content →
  (∀ k v, row !! k = Some v →
     k ∈ csv_headers content ∧ trimmed k ∧ trimmed v ∧ quote_unit ∉ v)
  ∧ (∀ h, h ∈ csv_headers content → h ≠ proto_key → is_Some (row !! h)).
Proof.
  rewrite parseCSV_unfold. intros Hrow.
  assert (Hheaders : ∀ k, k ∈ csv_headers content → trimmed k).
  { unfold csv_headers. intros k.
    destruct (js_split line_feed_unit (js_trim content)); [by intros ?%elem_of_nil|].
    intros (x & -> & _)%list_elem_of_fmap. apply trimmed_js_trim. }
  assert (∃ line, row = build_row (csv_headers content) (parse_line line))
    as [line ->].
  { destruct (js_split line_feed_unit (js_trim content)) as [|h [|l rest]];
      try by apply elem_of_nil in Hrow.
    apply list_elem_of_fmap in Hrow as (line & -> & _). by exists line. }
  split.
  - intros k v (Hk & _ & Hv)%build_row_lookup.
    split; [done|]. split; [by apply Hheaders|].
    destruct Hv as [Hv | ->].
    + pose proof (parse_line_values_ok line) as Hok.
      rewrite Forall_forall in Hok. by apply Hok.
    + split; [by split | apply not_elem_of_nil].
  - intros h Hh Hp. by apply build_row_present.
Qed.

Lemma parseCSV_rows_witness :
  let row := default ∅ (head (parseCSV example_csv)) in
  row ∈ parseCSV example_csv
  ∧ is_Some (row !! units "is_active")
  ∧ (∀ k v, row !! k = Some v → quote_unit ∉ v).
Proof.
  intros row.
  assert (Hin : row ∈ parseCSV example_csv).
  { apply list_elem_of_lookup. exists 0%nat. vm_compute. reflexivity. }
  destruct (parseCSV_rows example_csv row Hin) as [Hvalues Hkeys].
  split; [exact Hin|]. split.
  - apply Hkeys.
    + apply (bool_decide_unpack _). by vm_compute.
    + discriminate.
  - intros k v Hkv. by apply (Hvalues k v).
Defined.

(** ** Specializations *)

Section MapSpecializationsProperties.

Context (toLowerCase : list N → list N) (inherited : list N → bool).

Lemma specMap_get_key key value :
  (key, value) ∈ specMap → specMap_get inherited key = Some (Mapped value).
Proof.
  unfold specMap. intros H.
  repeat (apply elem_of_cons in H as [[= -> ->] | H]; [by vm_compute|]).
  by apply elem_of_nil in H.
Qed.

Lemma specMap_get_mapped spec m :
  inherited spec = false →
  specMap_get inherited spec = Some m → ∃ s, m = Mapped s.
Proof.
  unfold specMap_get. intros Hi. destruct (find _ specMap) as [entry|].
  - intros [= <-]. by eexists.
  - by rewrite Hi.
Qed.

Lemma map_one_prefix mapped spec :
  mapped `prefix_of` map_one inherited mapped spec.
Proof.
  unfold map_one. destruct (specMap_get inherited spec).
  - by apply prefix_app_r.
  - destruct (partial_match spec); [|done].
    destruct (includes mapped _); [done | by apply prefix_app_r].
Qed.

Lemma foldl_map_one_prefix mapped specs :
  mapped `prefix_of` foldl (map_one inherited) mapped specs.
Proof.
  revert mapped. induction specs as [|spec specs IH]; intros mapped; simpl.
  - done.
  - etrans; [apply map_one_prefix | apply IH].
Qed.

Lemma foldl_map_one_mapped mapped specs :
  (∀ spec, spec ∈ specs → inherited spec = false) →
  Forall (λ m, ∃ s, m = Mapped s) mapped →
  Forall (λ m, ∃ s, m = Mapped s) (foldl (map_one inherited) mapped specs).
Proof.
  revert mapped. induction specs as [|spec specs IH]; intros mapped Hi Hm;
    simpl; [done|].
  apply IH; [intros s Hs; apply Hi; by right|].
  unfold map_one. destruct (specMap_get inherited spec) as [m|] eqn:Hget.
  - apply Forall_app. split; [done|]. apply Forall_singleton.
    apply (specMap_get_mapped spec); [apply Hi; by left | done].
  - destruct (partial_match spec); [|done].
    destruct (includes mapped _); [done|].
    apply Forall_app. split; [done|]. apply Forall_singleton. by eexists.
Qed.

(** [mapSpecializations] never returns an empty list; an entry that is,
    once trimmed and put in lower case, one of the nine names of [specMap]
    puts the specialization of that name in the list; and every element
    of the list is a specialization provided no entry is the name of a
    property of [Object.prototype]. *)
Theorem mapSpecializations_spec csvSpecs :
  mapSpecializations toLowerCase inherited csvSpecs ≠ []
  ∧ (∀ key value,
       (key, value) ∈ specMap →
       key ∈ spec_entries toLowerCase csvSpecs →
       Mapped value ∈ mapSpecializations toLowerCase inherited csvSpecs)
  ∧ ((∀ spec, spec ∈ spec_entries toLowerCase csvSpecs → inherited spec = false) →
     ∀ m, m ∈ mapSpecializations toLowerCase inherited csvSpecs →
          ∃ s, m = Mapped s).
Proof.
  unfold mapSpecializations.
  set (mapped := foldl (map_one inherited) [] (spec_entries toLowerCase csvSpecs)).
  split_and!.
  - destruct mapped; simpl; done.
  - intros key value Hkey Hin.
    apply list_elem_of_split in Hin as (l1 & l2 & Hsplit).
    assert (Hmapped : Mapped value ∈ mapped).
    { unfold mapped. rewrite Hsplit, foldl_app. simpl.
      eapply elem_of_prefix; [|apply foldl_map_one_prefix].
      unfold map_one. rewrite (specMap_get_key key value Hkey).
      apply elem_of_app. right. by left. }
    destruct mapped; [by apply elem_of_nil in Hmapped | done].
  - intros Hi m Hm.
    pose proof (foldl_map_one_mapped [] (spec_entries toLowerCase csvSpecs)
                  Hi (Forall_nil_2 _)) as Hall.
    fold mapped in Hall. rewrite Forall_forall in Hall.
    destruct mapped; simpl in Hm; [|by apply Hall].
    apply list_elem_of_singleton in Hm as ->. by eexists.
Qed.

End MapSpecializationsProperties.

Lemma mapSpecializations_spec_witness :
  let csvSpecs := units "Individual Returns, Cryptocurrency" in
  ((units "cryptocurrency", crypto) ∈ specMap)
  ∧ (units "cryptocurrency" ∈ spec_entries ascii_toLowerCase csvSpecs)
  ∧ Mapped crypto ∈ example_mapSpecializations csvSpecs.
Proof.
  intros csvSpecs.
  assert (H1 : (units "cryptocurrency", crypto) ∈ specMap).
  { apply list_elem_of_lookup. by exists 5%nat. }
  assert (H2 : units "cryptocurrency" ∈ spec_entries ascii_toLowerCase csvSpecs).
  { apply list_elem_of_lookup. exists 1%nat. vm_compute. reflexivity. }
  split; [exact H1|]. split; [exact H2|].
  destruct (mapSpecializations_spec ascii_toLowerCase
              (λ name, bool_decide (name ∈ object_prototype_names)) csvSpecs)
    as (_ & Hkey & _).
  exact (Hkey _ _ H1 H2).
Defined.

(** An entry that names a property of [Object.prototype] puts the value
    of that property, not a specialization, in the list. *)
Example mapSpecializations_constructor :
  example_mapSpecializations (units "Constructor")
  = [Inherited (units "constructor")].
Proof. vm_compute. reflexivity. Qed.

(** An exact name is pushed as often as it is listed. *)
Example mapSpecializations_duplicates :
  example_mapSpecializations (units "Individual Returns,individual returns")
  = [Mapped individual; Mapped individual].
Proof. vm_compute. reflexivity. Qed.

(** ** Further witnesses *)

Lemma determineMaxComplexity_spec_witness :
  3 ≤ 250
  ∧ level_ordinal (determineMaxComplexity 90 3)
    ≤ level_ordinal (determineMaxComplexity 0 250).
Proof.
  split; [lia|].
  destruct (determineMaxComplexity_spec 90 0 3 250) as (_ & _ & _ & _ & _ & Hmono).
  apply Hmono. lia.
Defined.

Lemma updateTaxProLoad_effect_witness :
  let roster := initializeTaxPros in
  ∃ tp',
    (updateTaxProLoad roster "tp-005" (-3)).1 = Some tp'
    ∧ currentLoad tp' = 0
    ∧ getTaxPro (updateTaxProLoad roster "tp-005" (-3)).2 "tp-001"
      = getTaxPro roster "tp-001".
Proof.
  pose proof (updateTaxProLoad_effect initializeTaxPros "tp-005" (-3)) as H.
  destruct H as (tp' & H1 & _ & Hload & _ & _ & _ & _ & _ & _ & _ & _ & _
                 & _ & Hother & _).
  { vm_compute. done. }
  exists tp'. split; [exact H1|]. split; [by rewrite Hload|].
  by apply Hother.
Defined.

